(** * discosrv: the global discovery server

    A shallow embedding of [main.go] and [types.go]: the stored record
    types, the expiry sweep ([clean]), the registry operations ([get],
    [update]), the per-source rate limiter ([limit]), the two packet
    handlers ([handleAnnounceV2], [handleQueryV2]) and one turn of the
    receive loop of [main].

    Go values are represented as follows.  An [int64] is a [Z] whose
    arithmetic is wrapped by [wrap64]; a Go [string] or [[]byte] is a
    [string] (a sequence of bytes); a slice is a [list], with in-place
    writes through stdpp's list insert; the LevelDB handle is a finite map
    from keys to encoded values.  The clock, the failures of the storage
    engine and of the socket are inputs of every operation ([io]).  Log
    lines ([log.Printf], the debug output) are not part of the state; the
    goroutines [clean] and [logStats] are taken at their own steps, not
    interleaved with a packet. *)

From Stdlib Require Import ZArith String Ascii List Lia Bool.
From stdpp Require Import base gmap list strings fin_maps pretty.

Local Open Scope Z_scope.

(** ** Machine integers *)

Definition wrap64 (z : Z) : Z := (z + 2 ^ 63) mod 2 ^ 64 - 2 ^ 63.
Definition add64 (a b : Z) : Z := wrap64 (a + b).
Definition sub64 (a b : Z) : Z := wrap64 (a - b).
Definition int64_range (z : Z) : Prop := - 2 ^ 63 <= z < 2 ^ 63.

(** ** types.go *)

Record relay := mkRelay { r_address : string; r_latency : Z }.
Record address := mkAddress { a_address : string; a_seen : Z }.
Record addressList := mkAddressList { addresses : list address; relays : list relay }.

#[global] Instance relay_eq_dec : EqDecision relay.
Proof. solve_decision. Defined.
#[global] Instance address_eq_dec : EqDecision address.
Proof. solve_decision. Defined.
#[global] Instance addressList_eq_dec : EqDecision addressList.
Proof. solve_decision. Defined.

(** [protocol.DeviceID] is a [[32]byte]; the registry is keyed by [id[:]],
    a byte string. *)

(** The XDR codec of [addressList] is generated code that is not part of
    the sources at hand; it is taken as a parameter.  [Encoded] is the type
    of stored values, [MarshalXDR] may fail, and [UnmarshalXDR] returns
    whatever the decoder left in the zero-initialised struct (its error is
    ignored at every call site). *)
Class XDRCodec := {
  Encoded : Type;
  MarshalXDR : addressList -> option Encoded;
  UnmarshalXDR : Encoded -> addressList;
  UnmarshalXDR_MarshalXDR :
    forall l data, MarshalXDR l = Some data -> UnmarshalXDR data = l
}.

(** ** Library interfaces

    [net/url] and [net] belong to the Go standard library.  The program
    only uses the operations below; they are kept abstract, so that what
    is proved about the program holds for every behaviour of the library.
    [URL_withHost u h] is the assignment [u.Host = h]. *)
Class NetURL := {
  URL : Type;
  url_Parse : string -> option URL;
  URL_Host : URL -> string;
  URL_withHost : URL -> string -> URL;
  URL_String : URL -> string;
  SplitHostPort : string -> option (string * string);
  JoinHostPort : string -> string -> string;
  IP_String : list Z -> string
}.

(** The packets of [github.com/syncthing/syncthing/lib/discover]. *)
Record discover_Relay := mkDRelay { Address : string; Latency : Z }.
Record discover_Device := mkDevice {
  ID : string;
  Addresses : list string;
  Relays : list discover_Relay
}.
Record discover_Announce := mkAnnounce { a_Magic : Z; This : discover_Device }.
Record discover_Query := mkQuery { q_Magic : Z; DeviceID : string }.

(** Outcome of [pkt.UnmarshalXDR(buf)] on an announce: the handler lets
    [io.EOF] pass and goes on with what was decoded. *)
Inductive xdr_status := XdrOk | XdrEOF | XdrError.

(** The wire codec of [discover] and the text form of [protocol.DeviceID]. *)
Class Wire := {
  AnnouncementMagic : Z;
  QueryMagic : Z;
  Announce_UnmarshalXDR : string -> discover_Announce * xdr_status;
  Query_UnmarshalXDR : string -> option discover_Query;
  Announce_MarshalXDR : discover_Announce -> option string;
  DeviceID_UnmarshalText : string -> option string
}.

(** ** The token bucket of [github.com/juju/ratelimit]

    A model of the library's [Bucket]: [NewBucket], [adjust] and
    [TakeAvailable], with the clock passed in.  [None] from [NewBucket]
    stands for its panic on a non-positive interval or capacity. *)

Definition sat64 (z : Z) : Z := Z.max (- 2 ^ 63) (Z.min (2 ^ 63 - 1) z).
Definition mul64 (a b : Z) : Z := wrap64 (a * b).
Definition quot64 (a b : Z) : Z := wrap64 (Z.quot a b).

(** [t.Sub(u)]: the difference of two instants, saturated to an [int64]. *)
Definition time_Sub (t u : Z) : Z := sat64 (t - u).

Record Bucket := mkBucket {
  startTime : Z;
  capacity : Z;
  quantum : Z;
  fillInterval : Z;
  avail : Z;
  availTick : Z
}.

Definition NewBucket (now fillInterval capacity : Z) : option Bucket :=
  if fillInterval <=? 0 then None
  else if capacity <=? 0 then None
  else Some (mkBucket now capacity 1 fillInterval capacity 0).

Definition adjust (now : Z) (tb : Bucket) : Bucket :=
  let currentTick := quot64 (time_Sub now (startTime tb)) (fillInterval tb) in
  if capacity tb <=? avail tb then tb
  else
    let avail' := add64 (avail tb) (mul64 (sub64 currentTick (availTick tb)) (quantum tb)) in
    let avail' := if capacity tb <? avail' then capacity tb else avail' in
    mkBucket (startTime tb) (capacity tb) (quantum tb) (fillInterval tb) avail' currentTick.

Definition TakeAvailable (now : Z) (count : Z) (tb : Bucket) : Z * Bucket :=
  if count <=? 0 then (0, tb)
  else
    let tb := adjust now tb in
    if avail tb <=? 0 then (0, tb)
    else
      let count := if avail tb <? count then avail tb else count in
      (count,
       mkBucket (startTime tb) (capacity tb) (quantum tb) (fillInterval tb)
                (sub64 (avail tb) count) (availTick tb)).

(** ** The cache of [github.com/golang/groupcache/lru]

    [ll] is the recency list, most recently used first.  The values are the
    buckets themselves: the program keeps one pointer per key, so a bucket
    changed through that pointer is changed in the cache. *)

Record Cache := mkCache { MaxEntries : Z; ll : list (string * Bucket) }.

Definition lru_New (maxEntries : Z) : Cache := mkCache maxEntries [].

Fixpoint lru_find (key : string) (l : list (string * Bucket)) : option Bucket :=
  match l with
  | [] => None
  | (k, v) :: l' => if String.eqb k key then Some v else lru_find key l'
  end.

Fixpoint lru_remove (key : string) (l : list (string * Bucket)) : list (string * Bucket) :=
  match l with
  | [] => []
  | (k, v) :: l' => if String.eqb k key then l' else (k, v) :: lru_remove key l'
  end.

(** [c.Get(key)]: a hit moves the entry to the front. *)
Definition lru_Get (key : string) (c : Cache) : option Bucket * Cache :=
  match lru_find key (ll c) with
  | Some v => (Some v, mkCache (MaxEntries c) ((key, v) :: lru_remove key (ll c)))
  | None => (None, c)
  end.

(** [c.Add(key, value)]: a new entry goes to the front, and the oldest one
    is dropped when the list is longer than a non-zero [MaxEntries]. *)
Definition lru_Add (key : string) (value : Bucket) (c : Cache) : Cache :=
  match lru_find key (ll c) with
  | Some _ => mkCache (MaxEntries c) ((key, value) :: lru_remove key (ll c))
  | None =>
      let l := (key, value) :: ll c in
      if negb (MaxEntries c =? 0) && (MaxEntries c <? Z.of_nat (length l))
      then mkCache (MaxEntries c) (removelast l)
      else mkCache (MaxEntries c) l
  end.

(** A write through the bucket pointer that [Get] has just returned: the
    entry is at the front of the list. *)
Definition lru_poke (key : string) (value : Bucket) (c : Cache) : Cache :=
  match ll c with
  | (k, _) :: l' => if String.eqb k key then mkCache (MaxEntries c) ((k, value) :: l') else c
  | [] => c
  end.

(** ** [net.IP] and [net.UDPAddr] *)

Record UDPAddr := mkUDPAddr { IP : list Z; Port : Z }.

(** [ip.To4()] and [ip.To16()]; [None] is the nil slice. *)
Definition isZeros (p : list Z) : bool := forallb (Z.eqb 0) p.

Definition IP_To4 (ip : list Z) : option (list Z) :=
  if (length ip =? 4)%nat then Some ip
  else if (length ip =? 16)%nat && isZeros (take 10 ip)
          && (nth 10 ip 0 =? 255) && (nth 11 ip 0 =? 255)
  then Some (drop 12 ip)
  else None.

Definition v4InV6Prefix : list Z := [0; 0; 0; 0; 0; 0; 0; 0; 0; 0; 255; 255].

Definition IP_To16 (ip : list Z) : option (list Z) :=
  if (length ip =? 4)%nat then Some (v4InV6Prefix ++ ip)
  else if (length ip =? 16)%nat then Some ip
  else None.

(** [binary.BigEndian.Uint32(buf)], for a buffer of at least four bytes. *)
Definition byte_val (c : ascii) : Z := Z.of_N (N_of_ascii c).

Definition BigEndian_Uint32 (buf : string) : Z :=
  match buf with
  | String b0 (String b1 (String b2 (String b3 _))) =>
      Z.lor (Z.lor (Z.lor (Z.shiftl (byte_val b0) 24) (Z.shiftl (byte_val b1) 16))
                   (Z.shiftl (byte_val b2) 8)) (byte_val b3)
  | _ => 0
  end.

(** How a turn of the program ends: it goes on, or the process stops
    ([log.Fatal], or a run-time panic). *)
Inductive cause := LogFatal | NilDereference | DivideByZero | BucketPanic.
Inductive outcome (A : Type) := Running (a : A) | Terminated (c : cause).
Arguments Running {A} a.
Arguments Terminated {A} c.

(** The flags read by the packet path. [unknownLog] tells whether the sink
    for unknown packets is open. *)
Record config := mkConfig {
  lruSize : Z;
  limitAvg : Z;
  limitBurst : Z;
  unknownLog : bool
}.

(** [n++] on a Go [int] (64 bits on the amd64 target). *)
Definition incr (n : Z) : Z := add64 n 1.

(** ** main.go: constants *)

Definition cacheLimitSeconds : Z := 3600.

(** The test [nowSecs - a.seen > cacheLimitSeconds] shared by [clean] and
    [handleQueryV2]. *)
Definition expired (nowSecs : Z) (a : address) : bool :=
  cacheLimitSeconds <? sub64 nowSecs (a_seen a).

(** ** main.go: clean *)

(** The loop
    [for i := 0; i < len(newAddrs); i++ { if expired { newAddrs[i] =
    newAddrs[len-1]; newAddrs = newAddrs[:len-1] } }].
    [i] grows by one on every turn, so [length newAddrs - i] turns are
    enough; [fuel] bounds the number of turns. *)
Fixpoint prune_from (fuel : nat) (i : nat) (nowSecs : Z) (newAddrs : list address)
  : list address :=
  match fuel with
  | O => newAddrs
  | S fuel' =>
      match newAddrs !! i with
      | None => newAddrs
      | Some a =>
          if expired nowSecs a then
            match last newAddrs with
            | Some l =>
                prune_from fuel' (S i) nowSecs
                  (take (length newAddrs - 1)%nat (<[i:=l]> newAddrs))
            | None => newAddrs
            end
          else prune_from fuel' (S i) nowSecs newAddrs
      end
  end.

Definition prune (nowSecs : Z) (addrs : list address) : list address :=
  prune_from (length addrs) 0 nowSecs addrs.

Section Store.
Context {codec : XDRCodec} {net : NetURL} {wire : Wire}.

(** What the environment decides during one operation: the clock, and
    where the storage engine and the socket report an error.  [io_time] is
    in nanoseconds since the epoch. *)
Record io := mkIO {
  io_time : Z;
  io_get_err : string -> bool;
  io_write_err : string -> bool;
  io_send_err : bool
}.

(** [time.Now().Unix()]. *)
Definition Unix (t : Z) : Z := t / 1000000000.

(** [db.Get(key, nil)]: [None] stands for [err != nil] (not found, or a
    storage error). *)
Definition db_Get (w : io) (db : gmap string Encoded) (key : string) : option Encoded :=
  if io_get_err w key then None else db !! key.

(** [db.Put(key, data, nil)] and [db.Delete(key, nil)]; the callers drop
    their errors. *)
Definition db_Put (w : io) (db : gmap string Encoded) (key : string) (data : Encoded)
  : gmap string Encoded :=
  if io_write_err w key then db else <[key:=data]> db.

Definition db_Delete (w : io) (db : gmap string Encoded) (key : string)
  : gmap string Encoded :=
  if io_write_err w key then db else delete key db.

(** State of one sweep pass: the database and the two counters. *)
Record sweep := mkSweep {
  sw_db : gmap string Encoded;
  sw_kept : Z;
  sw_deleted : Z
}.

(** Body of [for iter.Next() { ... }] for one key and value. *)
Definition clean_record (w : io) (nowSecs : Z) (st : sweep) (key : string) (val : Encoded)
  : sweep :=
  let addrs := UnmarshalXDR val in
  let newAddrs := prune nowSecs (addresses addrs) in
  if (length newAddrs =? 0)%nat then
    mkSweep (db_Delete w (sw_db st) key) (sw_kept st) (add64 (sw_deleted st) 1)
  else if negb (length newAddrs =? length (addresses addrs))%nat then
    match MarshalXDR (mkAddressList newAddrs (relays addrs)) with
    | None => st
    | Some data =>
        mkSweep (db_Put w (sw_db st) key data) (add64 (sw_kept st) 1) (sw_deleted st)
    end
  else mkSweep (sw_db st) (add64 (sw_kept st) 1) (sw_deleted st).

(** One pass of [clean]: the iterator walks a snapshot of the database. *)
Definition clean_pass (w : io) (nowSecs : Z) (db : gmap string Encoded) : sweep :=
  foldl (fun st kv => clean_record w nowSecs st kv.1 kv.2)
        (mkSweep db 0 0) (map_to_list db).


(** [clean]: a pass at every wake-up of [next(cacheLimitSeconds)], each
    followed by a line with the time and the two counters on the
    statistics log. *)
Fixpoint clean (w : io) (wakes : list Z) (db : gmap string Encoded)
  : gmap string Encoded * list (Z * Z * Z) :=
  match wakes with
  | [] => (db, [])
  | nowSecs :: wakes' =>
      let st := clean_pass w nowSecs db in
      let '(db', lines) := clean w wakes' (sw_db st) in
      (db', (nowSecs, sw_kept st, sw_deleted st) :: lines)
  end.

(** ** main.go: get and update *)

(** The zero value of [addressList]. *)
Definition zero_addressList : addressList := mkAddressList [] [].

Definition read_record (w : io) (db : gmap string Encoded) (id : string) : addressList :=
  match db_Get w db id with
  | Some val => UnmarshalXDR val
  | None => zero_addressList
  end.

Definition get (w : io) (db : gmap string Encoded) (id : string)
  : list address * list relay :=
  let addrs := read_record w db id in
  (addresses addrs, relays addrs).

(** The inner loop [for i, exAddr := range newAddrs.addresses] of [update]
    for one [newAddr].  [todo] is what is left of the ranged-over slice,
    [i] the index of its head, [cur] the slice being written to.  The
    result is [Some l] when a labelled [continue nextAddr] left the loop
    with the slice [l], and [None] when the loop ran to its end. *)
Fixpoint merge_scan (newAddr : address) (i : nat) (todo cur : list address)
  : option (list address) :=
  match todo with
  | [] => None
  | exAddr :: todo' =>
      match url_Parse (a_address newAddr) with
      | None => Some cur
      | Some newAddrUri =>
          match SplitHostPort (URL_Host newAddrUri) with
          | None => Some cur
          | Some (newAddrHost, _) =>
              let newAddrUri := URL_withHost newAddrUri (JoinHostPort newAddrHost "22000") in
              match url_Parse (a_address exAddr) with
              | None => merge_scan newAddr (S i) todo' cur
              | Some exAddrUri =>
                  match SplitHostPort (URL_Host exAddrUri) with
                  | None => merge_scan newAddr (S i) todo' cur
                  | Some (exAddrHost, _) =>
                      let exAddrUri := URL_withHost exAddrUri (JoinHostPort exAddrHost "22000") in
                      if String.eqb (URL_String exAddrUri) (URL_String newAddrUri)
                      then Some (<[i:=newAddr]> cur)
                      else merge_scan newAddr (S i) todo' cur
                  end
              end
          end
      end
  end.

(** One turn of the outer loop [for _, newAddr := range addrs]. *)
Definition merge_one (cur : list address) (newAddr : address) : list address :=
  match merge_scan newAddr 0 cur cur with
  | Some l => l
  | None => cur ++ [newAddr]
  end.

Definition merge (cur addrs : list address) : list address :=
  foldl merge_one cur addrs.

(** The port-normalised form of an address that the comparison in
    [update] is made on: the URI with port 22000 put in place of its own.
    [None] when the address does not parse as a URI with a host and a
    port. *)
Definition normalize (s : string) : option string :=
  match url_Parse s with
  | None => None
  | Some u =>
      match SplitHostPort (URL_Host u) with
      | None => None
      | Some (h, _) => Some (URL_String (URL_withHost u (JoinHostPort h "22000")))
      end
  end.

Definition to_relay (rlay : discover_Relay) : relay :=
  mkRelay (Address rlay) (Latency rlay).

Definition update (w : io) (db : gmap string Encoded) (id : string)
    (addrs : list address) (relays : list discover_Relay) : gmap string Encoded :=
  let newAddrs := read_record w db id in
  let merged := merge (addresses newAddrs) addrs in
  let lrelays := map to_relay relays in
  match MarshalXDR (mkAddressList merged lrelays) with
  | None => db
  | Some data => db_Put w db id data
  end.

(** ** main.go: the process state

    The database, the limiter cache and the five counters, together with
    what the process has written: the datagrams sent and the lines of the
    unknown-packet log (a tag and the packet). *)
Record server := mkServer {
  db : gmap string Encoded;
  limiter : Cache;
  queries : Z;
  announces : Z;
  answered : Z;
  limited : Z;
  unknowns : Z;
  sent : list (UDPAddr * string);
  unknown_lines : list (string * string)
}.

Definition set_db (d : gmap string Encoded) (st : server) : server :=
  mkServer d (limiter st) (queries st) (announces st) (answered st) (limited st)
           (unknowns st) (sent st) (unknown_lines st).
Definition set_limiter (c : Cache) (st : server) : server :=
  mkServer (db st) c (queries st) (announces st) (answered st) (limited st)
           (unknowns st) (sent st) (unknown_lines st).
Definition incr_queries (st : server) : server :=
  mkServer (db st) (limiter st) (incr (queries st)) (announces st) (answered st)
           (limited st) (unknowns st) (sent st) (unknown_lines st).
Definition incr_announces (st : server) : server :=
  mkServer (db st) (limiter st) (queries st) (incr (announces st)) (answered st)
           (limited st) (unknowns st) (sent st) (unknown_lines st).
Definition incr_answered (st : server) : server :=
  mkServer (db st) (limiter st) (queries st) (announces st) (incr (answered st))
           (limited st) (unknowns st) (sent st) (unknown_lines st).
Definition incr_limited (st : server) : server :=
  mkServer (db st) (limiter st) (queries st) (announces st) (answered st)
           (incr (limited st)) (unknowns st) (sent st) (unknown_lines st).
Definition incr_unknowns (st : server) : server :=
  mkServer (db st) (limiter st) (queries st) (announces st) (answered st)
           (limited st) (incr (unknowns st)) (sent st) (unknown_lines st).
Definition push_sent (to : UDPAddr) (tb : string) (st : server) : server :=
  mkServer (db st) (limiter st) (queries st) (announces st) (answered st)
           (limited st) (unknowns st) (sent st ++ [(to, tb)]) (unknown_lines st).
Definition push_unknown (tag buf : string) (st : server) : server :=
  mkServer (db st) (limiter st) (queries st) (announces st) (answered st)
           (limited st) (unknowns st) (sent st) (unknown_lines st ++ [(tag, buf)]).

(** ** main.go: limit *)

(** [10*time.Second/time.Duration(limitAvg)], the refill interval in
    nanoseconds; [None] is the division by zero. *)
Definition limit_interval (cfg : config) : option Z :=
  if limitAvg cfg =? 0 then None else Some (quot64 10000000000 (limitAvg cfg)).

(** [limit(addr)] returns [true] when the packet is to be ignored. *)
Definition limit (cfg : config) (w : io) (addr : UDPAddr) (st : server)
  : outcome (bool * server) :=
  let key := IP_String (IP addr) in
  match lru_Get key (limiter st) with
  | (Some bkt, c) =>
      let '(n, bkt) := TakeAvailable (io_time w) 1 bkt in
      let st := set_limiter (lru_poke key bkt c) st in
      if negb (n =? 1) then Running (true, incr_limited st)
      else Running (false, st)
  | (None, c) =>
      match limit_interval cfg with
      | None => Terminated DivideByZero
      | Some intv =>
          match NewBucket (io_time w) intv (limitBurst cfg) with
          | None => Terminated BucketPanic
          | Some bkt => Running (false, set_limiter (lru_Add key bkt c) st)
          end
      end
  end.

(** The verdicts of [limit] on successive packets of one source, each with
    its own clock reading. *)
Fixpoint limit_seq (cfg : config) (ws : list io) (addr : UDPAddr) (st : server)
  : outcome (list bool * server) :=
  match ws with
  | [] => Running ([], st)
  | w :: ws' =>
      match limit cfg w addr st with
      | Terminated c => Terminated c
      | Running (b, st') =>
          match limit_seq cfg ws' addr st' with
          | Terminated c => Terminated c
          | Running (bs, st'') => Running (b :: bs, st'')
          end
      end
  end.

(** [limiter = lru.New(lruSize)], the counters at zero, and the database as
    it was opened. *)
Definition start_server (cfg : config) (d : gmap string Encoded) : server :=
  mkServer d (lru_New (lruSize cfg)) 0 0 0 0 0 [] [].

(** ** main.go: handleAnnounceV2 *)

(** The loop over [pkt.This.Addresses]: an address that does not parse as
    a URI with a host and a port is left out; an empty host is replaced by
    the source IP. *)
Fixpoint announce_addrs (ip : list Z) (now : Z) (l : list string) (addrs : list address)
  : list address :=
  match l with
  | [] => addrs
  | addr :: l' =>
      match url_Parse addr with
      | None => announce_addrs ip now l' addrs
      | Some uri =>
          match SplitHostPort (URL_Host uri) with
          | None => announce_addrs ip now l' addrs
          | Some (host, port) =>
              let uri :=
                if (String.length host =? 0)%nat
                then URL_withHost uri (JoinHostPort (IP_String ip) port)
                else uri in
              announce_addrs ip now l' (addrs ++ [mkAddress (URL_String uri) now])
          end
      end
  end.

(** [ip := addr.IP.To4(); if ip == nil { ip = addr.IP.To16() }]. *)
Definition source_ip (addr : UDPAddr) : list Z :=
  match IP_To4 (IP addr) with
  | Some ip => ip
  | None => match IP_To16 (IP addr) with Some ip => ip | None => [] end
  end.

(** A device id comes as its 32 raw bytes or in its text form. *)
Definition resolve_id (raw : string) : option string :=
  if (String.length raw =? 32)%nat then Some raw else DeviceID_UnmarshalText raw.

(** The result is [(err != nil, state)]. *)
Definition handleAnnounceV2 (w : io) (addr : UDPAddr) (buf : string) (st : server)
  : bool * server :=
  let '(pkt, status) := Announce_UnmarshalXDR buf in
  match status with
  | XdrError => (true, st)
  | _ =>
      let st := incr_announces st in
      let ip := source_ip addr in
      let now := Unix (io_time w) in
      let addrs := announce_addrs ip now (Addresses (This pkt)) [] in
      match resolve_id (ID (This pkt)) with
      | None => (true, st)
      | Some id => (false, set_db (update w (db st) id addrs (Relays (This pkt))) st)
      end
  end.

(** ** main.go: handleQueryV2 *)

Definition to_discover_Relay (r : relay) : discover_Relay :=
  mkDRelay (r_address r) (r_latency r).

(** The loop that fills [ann.This.Addresses]. *)
Fixpoint reply_addresses (now : Z) (addrs : list address) (out : list string)
  : list string :=
  match addrs with
  | [] => out
  | addr :: addrs' =>
      if expired now addr then reply_addresses now addrs' out
      else reply_addresses now addrs' (out ++ [a_address addr])
  end.

Definition handleQueryV2 (w : io) (addr : UDPAddr) (buf : string) (st : server)
  : bool * server :=
  match Query_UnmarshalXDR buf with
  | None => (true, st)
  | Some pkt =>
      match resolve_id (DeviceID pkt) with
      | None => (true, st)
      | Some id =>
          let st := incr_queries st in
          let '(addrs, relays) := get w (db st) id in
          let drelays := map to_discover_Relay relays in
          let now := Unix (io_time w) in
          if (0 <? length addrs)%nat then
            let ann :=
              mkAnnounce AnnouncementMagic
                (mkDevice (DeviceID pkt) (reply_addresses now addrs []) drelays) in
            if (length (Addresses (This ann)) =? 0)%nat then (false, st)
            else
              match Announce_MarshalXDR ann with
              | None => (false, st)
              | Some tb =>
                  if io_send_err w then (false, st)
                  else (false, incr_answered (push_sent addr tb st))
              end
          else (false, st)
      end
  end.

(** ** main.go: main *)

(** What [conn.ReadFromUDP(buf)] returned: the bytes [buf[:n]], the source
    (a pointer, [None] when nil) and whether [err != nil]. *)
Record datagram := mkDatagram {
  rc_buf : string;
  rc_addr : option UDPAddr;
  rc_err : bool
}.

Definition log_unknown (cfg : config) (tag buf : string) (st : server) : server :=
  if unknownLog cfg then push_unknown tag buf st else st.

(** One turn of the receive loop. *)
Definition serve_one (cfg : config) (w : io) (rc : datagram) (st : server)
  : outcome server :=
  match rc_addr rc with
  | None => Terminated NilDereference
  | Some addr =>
      match limit cfg w addr st with
      | Terminated c => Terminated c
      | Running (true, st) => Running st
      | Running (false, st) =>
          if rc_err rc then Terminated LogFatal
          else if (String.length (rc_buf rc) <? 4)%nat then Running st
          else
            let buf := rc_buf rc in
            let magic := BigEndian_Uint32 buf in
            if magic =? AnnouncementMagic then
              let '(err, st) := handleAnnounceV2 w addr buf st in
              Running (if err then log_unknown cfg "AE" buf st else st)
            else if magic =? QueryMagic then
              let '(err, st) := handleQueryV2 w addr buf st in
              Running (if err then log_unknown cfg "QE" buf st else st)
            else Running (log_unknown cfg "UN" buf (incr_unknowns st))
      end
  end.

(** The receive loop over the datagrams of a run, each with what the
    environment decided while it was handled. *)
Fixpoint serve (cfg : config) (evs : list (io * datagram)) (st : server)
  : outcome server :=
  match evs with
  | [] => Running st
  | (w, rc) :: evs' =>
      match serve_one cfg w rc st with
      | Running st' => serve cfg evs' st'
      | Terminated c => Terminated c
      end
  end.

End Store.




(** ** A model of the Go library on plain addresses

    The examples of the specification are checked against this instance of
    [NetURL].  It follows [net/url] and [net] on addresses written with
    letters, digits and the characters [: / . - _ + ~] and brackets, where
    no escaping takes place: [getScheme] with its lower-casing, the
    authority after [//], the path; [SplitHostPort] and [JoinHostPort] with
    their bracket rules; [IP.String].  A string with any other character
    (user information, query, fragment, escapes) is outside the model and is
    treated as one that does not parse. *)
Module GoNet.

Record URL := mkURL { Scheme : string; Opaque : string; Host : string; Path : string }.

Definition in_range (lo hi : nat) (c : ascii) : bool :=
  let n := nat_of_ascii c in ((lo <=? n) && (n <=? hi))%nat.
Definition is_upper (c : ascii) : bool := in_range 65 90 c.
Definition is_alpha (c : ascii) : bool := in_range 97 122 c || is_upper c.
Definition is_digit (c : ascii) : bool := in_range 48 57 c.
Definition is_char (x c : ascii) : bool := Ascii.eqb x c.

Definition to_lower (c : ascii) : ascii :=
  if is_upper c then ascii_of_nat (nat_of_ascii c + 32) else c.

Fixpoint ToLower (s : string) : string :=
  match s with
  | EmptyString => EmptyString
  | String c s' => String (to_lower c) (ToLower s')
  end.

Fixpoint forallb_string (p : ascii -> bool) (s : string) : bool :=
  match s with
  | EmptyString => true
  | String c s' => p c && forallb_string p s'
  end.

Fixpoint byteIndex (s : string) (c : ascii) : option nat :=
  match s with
  | EmptyString => None
  | String x s' => if is_char c x then Some O else S <$> byteIndex s' c
  end.

Fixpoint last (s : string) (c : ascii) : option nat :=
  match s with
  | EmptyString => None
  | String x s' =>
      match last s' c with
      | Some i => Some (S i)
      | None => if is_char c x then Some O else None
      end
  end.

Definition contains (s : string) (c : ascii) : bool :=
  match byteIndex s c with Some _ => true | None => false end.

Definition from (i : nat) (s : string) : string := substring i (String.length s - i) s.
Definition upto (i : nat) (s : string) : string := substring 0 i s.

Definition plain_char (c : ascii) : bool :=
  is_alpha c || is_digit c || contains ":/.-_+~[]" c.

(** [getScheme]: [None] is the error "missing protocol scheme". *)
Fixpoint getScheme_from (i : nat) (rest rawurl : string) : option (string * string) :=
  match rest with
  | EmptyString => Some (EmptyString, rawurl)
  | String c rest' =>
      if is_alpha c then getScheme_from (S i) rest' rawurl
      else if is_digit c || contains "+-." c then
        if (i =? 0)%nat then Some (EmptyString, rawurl)
        else getScheme_from (S i) rest' rawurl
      else if is_char ":" c then
        if (i =? 0)%nat then None else Some (upto i rawurl, rest')
      else Some (EmptyString, rawurl)
  end.

Definition getScheme (rawurl : string) : option (string * string) :=
  getScheme_from 0 rawurl rawurl.

(** [url.Parse]. *)
Definition Parse (rawurl : string) : option URL :=
  if negb (forallb_string plain_char rawurl) then None
  else
    match getScheme rawurl with
    | None => None
    | Some (scheme, rest) =>
        let scheme := ToLower scheme in
        if negb (String.prefix "/" rest) && negb (String.eqb scheme "")
        then Some (mkURL scheme rest "" "")
        else if String.prefix "//" rest then
          let rest := from 2 rest in
          let '(authority, rest) :=
            match byteIndex rest "/" with
            | Some i => (upto i rest, from i rest)
            | None => (rest, EmptyString)
            end in
          if contains rest "[" || contains rest "]" then None
          else Some (mkURL scheme "" authority rest)
        else if contains rest "[" || contains rest "]" then None
        else Some (mkURL scheme "" "" rest)
    end.

(** [u.String()]. *)
Definition String_ (u : URL) : string :=
  (if String.eqb (Scheme u) "" then "" else Scheme u ++ ":") ++
  (if negb (String.eqb (Opaque u) "") then Opaque u
   else
     (if negb (String.eqb (Scheme u) "") || negb (String.eqb (Host u) "")
      then "//" ++ Host u else "") ++
     (if negb (String.eqb (Path u) "") && negb (String.prefix "/" (Path u))
         && negb (String.eqb (Host u) "")
      then "/" else "") ++
     Path u).

(** [net.SplitHostPort]; [None] is any of its errors. *)
Definition SplitHostPort (hostport : string) : option (string * string) :=
  match last hostport ":" with
  | None => None
  | Some i =>
      let bracketed :=
        if String.prefix "[" hostport then
          match byteIndex hostport "]" with
          | None => None
          | Some e => if (S e =? i)%nat then Some (substring 1 (e - 1) hostport, 1%nat, S e) else None
          end
        else
          let host := upto i hostport in
          if contains host ":" || contains host "%" then None else Some (host, 0%nat, 0%nat) in
      match bracketed with
      | None => None
      | Some (host, j, k) =>
          if contains (from j hostport) "[" then None
          else if contains (from k hostport) "]" then None
          else Some (host, from (S i) hostport)
      end
  end.

(** [net.JoinHostPort]. *)
Definition JoinHostPort (host port : string) : string :=
  if contains host ":" || contains host "%" then "[" ++ host ++ "]:" ++ port
  else host ++ ":" ++ port.

(** [ip.String()]. *)
Definition hex_digit (n : Z) : string :=
  String (ascii_of_nat (Z.to_nat (if n <? 10 then 48 + n else 87 + n))) EmptyString.

Definition appendHex (g : Z) : string :=
  let d3 := Z.shiftr g 12 in
  let d2 := Z.land (Z.shiftr g 8) 15 in
  let d1 := Z.land (Z.shiftr g 4) 15 in
  let d0 := Z.land g 15 in
  if 0 <? d3 then hex_digit d3 ++ hex_digit d2 ++ hex_digit d1 ++ hex_digit d0
  else if 0 <? d2 then hex_digit d2 ++ hex_digit d1 ++ hex_digit d0
  else if 0 <? d1 then hex_digit d1 ++ hex_digit d0
  else hex_digit d0.

Fixpoint groups (ip : list Z) : list Z :=
  match ip with
  | hi :: lo :: ip' => Z.lor (Z.shiftl hi 8) lo :: groups ip'
  | _ => []
  end.

Fixpoint zero_run (l : list Z) : nat :=
  match l with
  | 0 :: l' => S (zero_run l')
  | _ => O
  end.

Fixpoint longest_run (i : nat) (l : list Z) (best : nat * nat) : nat * nat :=
  match l with
  | [] => best
  | _ :: l' =>
      let n := zero_run l in
      longest_run (S i) l' (if (snd best <? n)%nat then (i, n) else best)
  end.

Fixpoint join_hex (l : list Z) : string :=
  match l with
  | [] => ""
  | [g] => appendHex g
  | g :: l' => appendHex g ++ ":" ++ join_hex l'
  end.

Definition IP_String (ip : list Z) : string :=
  if (length ip =? 0)%nat then "<nil>"
  else
    match IP_To4 ip with
    | Some [a; b; c; d] => pretty a ++ "." ++ pretty b ++ "." ++ pretty c ++ "." ++ pretty d
    | _ =>
        if negb (length ip =? 16)%nat then "?"
        else
          let gs := groups ip in
          let '(e0, n) := longest_run 0 gs (O, O) in
          if (n <=? 1)%nat then join_hex gs
          else join_hex (take e0 gs) ++ "::" ++ join_hex (drop (e0 + n) gs)
    end.

End GoNet.

Definition go_net : NetURL := {|
  URL := GoNet.URL;
  url_Parse := GoNet.Parse;
  URL_Host := GoNet.Host;
  URL_withHost := fun u h => GoNet.mkURL (GoNet.Scheme u) (GoNet.Opaque u) h (GoNet.Path u);
  URL_String := GoNet.String_;
  SplitHostPort := GoNet.SplitHostPort;
  JoinHostPort := GoNet.JoinHostPort;
  IP_String := GoNet.IP_String
|}.

(** The defaults of the flags. *)
Definition default_config : config := mkConfig 1024 1 10 false.

(** ** Instances used by the examples

    A codec that stores the record itself, and a wire codec that decodes
    every buffer to a given packet. *)
Definition plain_codec : XDRCodec :=
  {| Encoded := addressList;
     MarshalXDR := Some;
     UnmarshalXDR := fun data => data;
     UnmarshalXDR_MarshalXDR := fun l data H => eq_sym (Some_inj _ _ H) |}.

Definition fixed_wire (ann : discover_Announce) (status : xdr_status)
    (q : option discover_Query) : Wire :=
  {| AnnouncementMagic := 2642000960;
     QueryMagic := 749229814;
     Announce_UnmarshalXDR := fun _ => (ann, status);
     Query_UnmarshalXDR := fun _ => q;
     Announce_MarshalXDR := fun a =>
       if (16 <? length (Addresses (This a)))%nat then None
       else Some (String.concat " " (ID (This a) :: Addresses (This a)));
     DeviceID_UnmarshalText := fun _ => None |}.

(** A clock reading with no storage or socket error. *)
Definition calm (t : Z) : io := mkIO t (fun _ => false) (fun _ => false) false.

(** Successive readings of the clock are at least [d] apart. *)
Fixpoint paced (d : Z) (t : Z) (ts : list Z) : Prop :=
  match ts with
  | [] => True
  | t' :: ts' => t + d <= t' /\ paced d t' ts'
  end.

(** What the proofs about the limiter keep track of: the bucket of a
    source created at [t1], with interval [I] and capacity [B], that has
    been refilled up to the tick [tick] at most. *)
Definition bucket_ok (t1 I B tick : Z) (b : Bucket) : Prop :=
  startTime b = t1 /\ capacity b = B /\ quantum b = 1 /\ fillInterval b = I /\
  0 <= avail b <= B /\ 0 <= availTick b <= tick.

(** The verdicts of a run of [limit_seq], when the process is still up. *)
Definition verdicts {A : Type} (o : outcome (list bool * A)) : option (list bool) :=
  match o with
  | Running (bs, _) => Some bs
  | Terminated _ => None
  end.

(** A device id of 32 bytes and a source address for the examples. *)
Definition sample_id : string := "0123456789abcdef0123456789abcdef".
Definition sample_source : UDPAddr := mkUDPAddr [203; 0; 113; 5] 40000.

(** ** main.go: next and logStats

    [time.Time] values are nanoseconds since the Unix epoch, as in [io].
    [Truncate] rounds down to a multiple of [d] counted from Go's zero time
    (year 1), which lies [unixToInternal] seconds before the epoch. *)
Definition unixToInternal : Z := 62135596800.

Definition Truncate (t d : Z) : Z :=
  if d <=? 0 then t else t - (t + unixToInternal * 1000000000) mod d.

(** [next(intv)] when the clock reads [t0]: the time returned and the
    duration slept. *)
Definition next (intv : Z) (t0 : Z) : Z * Z :=
  let d := mul64 intv 1000000000 in
  let t1 := Truncate (t0 + d) d in
  (t1, time_Sub t1 t0).


Section Stats.
Context {codec : XDRCodec}.


(** How the counters of [st'] stand to those of [st] after one datagram:
    nothing counted, or exactly one of limited, announces, queries and
    unknowns went up by one, an answer being counted only with its query. *)
Definition counted_once (st st' : server) : Prop :=
  (queries st' = queries st /\ answered st' = answered st /\ announces st' = announces st
   /\ unknowns st' = unknowns st /\ limited st' = limited st)
  \/ (queries st' = queries st /\ answered st' = answered st /\ announces st' = announces st
      /\ unknowns st' = unknowns st /\ limited st' = incr (limited st))
  \/ (queries st' = queries st /\ answered st' = answered st
      /\ announces st' = incr (announces st)
      /\ unknowns st' = unknowns st /\ limited st' = limited st)
  \/ (queries st' = incr (queries st)
      /\ (answered st' = answered st \/ answered st' = incr (answered st))
      /\ announces st' = announces st
      /\ unknowns st' = unknowns st /\ limited st' = limited st)
  \/ (queries st' = queries st /\ answered st' = answered st /\ announces st' = announces st
      /\ unknowns st' = incr (unknowns st) /\ limited st' = limited st).

End Stats.

(** The number of packets let through in a list of verdicts of [limit]. *)
Definition passed (bs : list bool) : nat := length (List.filter negb bs).

(** ** ql.go: qlSetup

    The statements run by [qlSetup], in order, and the transaction they run
    in.  What [db.Begin], [tx.Exec] and [tx.Commit] answer is decided by the
    environment. *)
Definition setup_statements : list string :=
  ["CREATE TABLE IF NOT EXISTS Devices (
		DeviceID STRING NOT NULL,
		Seen TIME NOT NULL
	)";
   "CREATE INDEX IF NOT EXISTS DevicesDeviceIDIndex ON Devices (DeviceID)";
   "CREATE TABLE IF NOT EXISTS Addresses (
		DeviceID STRING NOT NULL,
		Seen TIME NOT NULL,
		Address STRING NOT NULL,
	)";
   "CREATE INDEX IF NOT EXISTS AddressesDeviceIDAddressIndex ON Addresses (DeviceID, Address)";
   "CREATE TABLE IF NOT EXISTS Relays (
		DeviceID STRING NOT NULL,
		Seen TIME NOT NULL,
		Address STRING NOT NULL,
		Latency INT NOT NULL,
	)";
   "CREATE INDEX IF NOT EXISTS RelaysDeviceIDAddressIndex ON Relays (DeviceID, Address)"].

Record sql_env := mkSqlEnv {
  begin_ok : bool;
  exec_ok : string -> bool;
  commit_ok : bool
}.

(** What became of the transaction. *)
Inductive tx_end := NotBegun | Committed | RolledBack.

(** The chain of [tx.Exec] calls, each followed by [if err != nil
    { return }]: the statements executed, and whether the last one
    failed. *)
Fixpoint exec_chain (e : sql_env) (stmts : list string) : list string * bool :=
  match stmts with
  | [] => ([], false)
  | q :: stmts' =>
      if exec_ok e q then
        let '(done, err) := exec_chain e stmts' in (q :: done, err)
      else ([q], true)
  end.

(** [qlSetup]: the statements executed, the end of the transaction, and
    whether the error returned is not nil.  The deferred function commits
    when [err == nil], and then returns the error of the commit; it rolls
    back otherwise. *)
Definition qlSetup (e : sql_env) : list string * tx_end * bool :=
  if negb (begin_ok e) then ([], NotBegun, true)
  else
    let '(done, err) := exec_chain e setup_statements in
    if err then (done, RolledBack, true)
    else (done, Committed, negb (commit_ok e)).

(** An address that the test of [clean] and [handleQueryV2] lets stay. *)
Definition unexpired (nowSecs : Z) (a : address) : bool := negb (expired nowSecs a).

(** * Properties *)

(** ** Machine integers *)

Lemma wrap64_small (z : Z) : int64_range z -> wrap64 z = z.
Proof.
  unfold int64_range, wrap64. intros Hz.
  rewrite Z.mod_small by lia. lia.
Qed.

Lemma wrap64_range (z : Z) : int64_range (wrap64 z).
Proof.
  unfold int64_range, wrap64.
  pose proof (Z.mod_pos_bound (z + 2 ^ 63) (2 ^ 64) ltac:(lia)). lia.
Qed.



(** ** The pruning loop of [clean] *)

Lemma swap_remove_snoc (l : list address) (y : address) (i : nat) :
  take (length (l ++ [y]) - 1)%nat (<[i:=y]> (l ++ [y])) = <[i:=y]> l.
Proof.
  rewrite length_app. simpl.
  replace (length l + 1 - 1)%nat with (length l) by lia.
  destruct (decide (i < length l)%nat) as [Hlt | Hge].
  - rewrite insert_app_l by done.
    rewrite take_app_length' by (by rewrite length_insert). done.
  - rewrite (list_insert_ge l) by lia.
    destruct (decide (i = length l)) as [-> | Hne].
    + rewrite insert_app_r_alt by lia. rewrite take_app_length. done.
    + rewrite list_insert_ge by (rewrite length_app; simpl; lia).
      by rewrite take_app_length.
Qed.

Lemma prune_from_step (fuel i : nat) (nowSecs : Z) (l : list address) (x y : address) :
  (l ++ [y]) !! i = Some x -> expired nowSecs x = true ->
  prune_from (S fuel) i nowSecs (l ++ [y]) = prune_from fuel (S i) nowSecs (<[i:=y]> l).
Proof.
  intros Hi Hx. simpl. rewrite Hi, Hx, last_snoc.
  by rewrite swap_remove_snoc.
Qed.

(** An address that has not expired survives the loop. *)
Lemma prune_from_keeps (fuel i : nat) (nowSecs : Z) (l : list address) (a : address) :
  a ∈ l -> expired nowSecs a = false -> a ∈ prune_from fuel i nowSecs l.
Proof.
  revert i l. induction fuel as [| fuel IH]; intros i l Hin Ha; [done |].
  simpl. destruct (l !! i) as [x |] eqn:Hi; [| done].
  destruct (expired nowSecs x) eqn:Hx; [| by apply IH].
  destruct (last l) as [y |] eqn:Hl; [| done].
  apply last_Some in Hl as [l' ->].
  rewrite swap_remove_snoc. apply IH; [| done].
  assert (a ≠ x) as Hne by (intros ->; congruence).
  apply elem_of_app in Hin as [Hin | Hin].
  - apply list_elem_of_lookup in Hin as [j Hj].
    apply list_elem_of_lookup. exists j.
    rewrite list_lookup_insert_ne; [done |].
    intros ->. rewrite lookup_app_l in Hi by (by eapply lookup_lt_Some).
    congruence.
  - apply list_elem_of_singleton in Hin as ->.
    destruct (decide (i < length l')%nat) as [Hlt | Hge].
    + apply list_elem_of_lookup. exists i. by apply list_lookup_insert_eq.
    + apply lookup_lt_Some in Hi as Hlen. rewrite length_app in Hlen. simpl in Hlen.
      assert (i = length l') as -> by lia.
      rewrite lookup_app_r in Hi by lia.
      rewrite Nat.sub_diag in Hi. simpl in Hi. congruence.
Qed.

Lemma prune_keeps (nowSecs : Z) (l : list address) (a : address) :
  a ∈ l -> expired nowSecs a = false -> a ∈ prune nowSecs l.
Proof. apply prune_from_keeps. Qed.

(** The loop only removes: what is left was there before. *)
Lemma prune_from_subset (fuel i : nat) (nowSecs : Z) (l : list address) (a : address) :
  a ∈ prune_from fuel i nowSecs l -> a ∈ l.
Proof.
  revert i l. induction fuel as [| fuel IH]; intros i l; [done |].
  simpl. destruct (l !! i) as [x |] eqn:Hi; [| done].
  destruct (expired nowSecs x) eqn:Hx; [| by apply IH].
  destruct (last l) as [y |] eqn:Hl; [| done].
  apply last_Some in Hl as [l' ->].
  rewrite swap_remove_snoc. intros Hin. apply IH in Hin.
  apply elem_of_app.
  apply list_elem_of_lookup in Hin as [j Hj].
  apply list_lookup_insert_Some in Hj as [(-> & -> & _) | (_ & Hj)].
  - right. by apply list_elem_of_singleton.
  - left. by eapply list_elem_of_lookup_2.
Qed.

Lemma prune_from_length (fuel i : nat) (nowSecs : Z) (l : list address) :
  (length (prune_from fuel i nowSecs l) <= length l)%nat.
Proof.
  revert i l. induction fuel as [| fuel IH]; intros i l; [done |].
  simpl. destruct (l !! i) as [x |] eqn:Hi; [| done].
  destruct (expired nowSecs x) eqn:Hx; [| by apply IH].
  destruct (last l) as [y |] eqn:Hl; [| done].
  apply last_Some in Hl as [l' ->].
  rewrite swap_remove_snoc.
  etrans; [apply IH |]. rewrite length_insert, length_app. simpl. lia.
Qed.

(** The fuel given by [prune] is enough: more fuel changes nothing. *)
Lemma prune_from_fuel (fuel fuel' i : nat) (nowSecs : Z) (l : list address) :
  (length l - i <= fuel)%nat -> (length l - i <= fuel')%nat ->
  prune_from fuel i nowSecs l = prune_from fuel' i nowSecs l.
Proof.
  revert fuel' i l. induction fuel as [| fuel IH]; intros fuel' i l Hf Hf'.
  - destruct fuel' as [| fuel']; [done |].
    simpl. rewrite lookup_ge_None_2 by lia. done.
  - destruct fuel' as [| fuel'].
    + simpl. rewrite lookup_ge_None_2 by lia. done.
    + simpl. destruct (l !! i) as [x |] eqn:Hi; [| done].
      apply lookup_lt_Some in Hi as Hlt.
      destruct (expired nowSecs x) eqn:Hx; [| apply IH; lia].
      destruct (last l) as [y |] eqn:Hl; [| done].
      apply last_Some in Hl as [l' ->].
      rewrite swap_remove_snoc.
      rewrite length_app in *. simpl in *.
      apply IH; rewrite length_insert; lia.
Qed.

(** The address moved into the slot of an expired one is not looked at:
    of two expired addresses the second stays. *)
Lemma prune_two_expired (nowSecs : Z) (a b : address) :
  expired nowSecs a = true -> prune nowSecs [a; b] = [b].
Proof. intros Ha. unfold prune. simpl. by rewrite Ha. Qed.

Lemma prune_single_expired (nowSecs : Z) (a : address) :
  expired nowSecs a = true -> prune nowSecs [a] = [].
Proof. intros Ha. unfold prune. simpl. by rewrite Ha. Qed.

(** ** One pass of [clean] over the database *)

Section SweepFacts.
Context {codec : XDRCodec}.
Implicit Types (st : sweep) (db : gmap string Encoded) (w : io).

Lemma db_Put_lookup_ne w db (k k' : string) (data : Encoded) :
  k ≠ k' -> db_Put w db k data !! k' = db !! k'.
Proof. intros Hne. unfold db_Put. destruct (io_write_err w k); [done |]. by rewrite lookup_insert_ne. Qed.

Lemma db_Delete_lookup_ne w db (k k' : string) :
  k ≠ k' -> db_Delete w db k !! k' = db !! k'.
Proof. intros Hne. unfold db_Delete. destruct (io_write_err w k); [done |]. by rewrite lookup_delete_ne. Qed.

(** A turn of the loop touches the entry of its own key only. *)
Lemma clean_record_lookup_ne w nowSecs st (key k : string) (val : Encoded) :
  key ≠ k -> sw_db (clean_record w nowSecs st key val) !! k = sw_db st !! k.
Proof.
  intros Hne. unfold clean_record.
  repeat case_match; simpl; try done.
  - by apply db_Delete_lookup_ne.
  - by apply db_Put_lookup_ne.
Qed.

Lemma clean_record_lookup_ext w nowSecs st1 st2 (key : string) (val : Encoded) :
  sw_db st1 !! key = sw_db st2 !! key ->
  sw_db (clean_record w nowSecs st1 key val) !! key
  = sw_db (clean_record w nowSecs st2 key val) !! key.
Proof.
  intros He. unfold clean_record, db_Delete, db_Put.
  repeat case_match; simpl; try done; by rewrite ?lookup_delete_eq, ?lookup_insert_eq.
Qed.

Lemma clean_fold_lookup_other w nowSecs (l : list (string * Encoded)) st (k : string) :
  k ∉ l.*1 ->
  sw_db (foldl (fun st kv => clean_record w nowSecs st kv.1 kv.2) st l) !! k = sw_db st !! k.
Proof.
  revert st. induction l as [| [k0 v0] l IH]; intros st Hk; [done |].
  simpl in *. apply not_elem_of_cons in Hk as [Hne Hk].
  rewrite IH by done. by apply clean_record_lookup_ne.
Qed.

Lemma clean_fold_lookup w nowSecs (l : list (string * Encoded)) st (k : string) (v : Encoded) :
  NoDup l.*1 -> (k, v) ∈ l ->
  sw_db (foldl (fun st kv => clean_record w nowSecs st kv.1 kv.2) st l) !! k
  = sw_db (clean_record w nowSecs st k v) !! k.
Proof.
  revert st. induction l as [| [k0 v0] l IH]; intros st Hnd Hin.
  - by apply elem_of_nil in Hin.
  - simpl in *. apply NoDup_cons in Hnd as [Hk0 Hnd].
    apply elem_of_cons in Hin as [Heq | Hin].
    + injection Heq as -> ->. by apply clean_fold_lookup_other.
    + assert (k0 ≠ k) as Hne.
      { intros ->. apply Hk0. apply list_elem_of_fmap. by exists (k, v). }
      rewrite IH by done. apply clean_record_lookup_ext.
      by apply clean_record_lookup_ne.
Qed.

(** What a pass leaves under a key is what the turn for that key leaves. *)
Lemma clean_pass_lookup w nowSecs db (k : string) (v : Encoded) :
  db !! k = Some v ->
  sw_db (clean_pass w nowSecs db) !! k
  = sw_db (clean_record w nowSecs (mkSweep db 0 0) k v) !! k.
Proof.
  intros Hk. unfold clean_pass. apply clean_fold_lookup.
  - apply NoDup_fst_map_to_list.
  - by apply elem_of_map_to_list.
Qed.

Lemma clean_pass_lookup_None w nowSecs db (k : string) :
  db !! k = None -> sw_db (clean_pass w nowSecs db) !! k = None.
Proof.
  intros Hk. unfold clean_pass. rewrite clean_fold_lookup_other; [done |].
  intros Hin. apply list_elem_of_fmap in Hin as [[k' v] [-> Hin]].
  apply elem_of_map_to_list in Hin. simpl in *. congruence.
Qed.

(** A fresh address of a stored record is still stored after the pass. *)
Lemma clean_pass_keeps_fresh w nowSecs db (k : string) (v : Encoded) (a : address) :
  db !! k = Some v -> a ∈ addresses (UnmarshalXDR v) -> expired nowSecs a = false ->
  exists v', sw_db (clean_pass w nowSecs db) !! k = Some v'
             /\ a ∈ addresses (UnmarshalXDR v').
Proof.
  intros Hk Hin Ha. rewrite (clean_pass_lookup _ _ _ _ _ Hk).
  pose proof (prune_keeps nowSecs _ _ Hin Ha) as Hp.
  unfold clean_record. simpl.
  destruct (length (prune nowSecs (addresses (UnmarshalXDR v))) =? 0)%nat eqn:Hz.
  { apply Nat.eqb_eq in Hz. apply length_zero_iff_nil in Hz.
    rewrite Hz in Hp. by apply elem_of_nil in Hp. }
  destruct (negb _); simpl; [| by exists v].
  destruct (MarshalXDR _) as [data |] eqn:Hm; simpl; [| by exists v].
  unfold db_Put. destruct (io_write_err w k); [by exists v |].
  exists data. rewrite lookup_insert_eq. split; [done |].
  by rewrite (UnmarshalXDR_MarshalXDR _ _ Hm).
Qed.

(** A record with no address left is deleted, not written back: when
    writes succeed, no record stored after a pass has an empty list. *)
Lemma clean_pass_no_empty_record w nowSecs db (k : string) (v' : Encoded) :
  io_write_err w k = false ->
  sw_db (clean_pass w nowSecs db) !! k = Some v' ->
  addresses (UnmarshalXDR v') ≠ [].
Proof.
  intros Hw Hs. destruct (db !! k) as [v |] eqn:Hk.
  2: { rewrite clean_pass_lookup_None in Hs by done. done. }
  rewrite (clean_pass_lookup _ _ _ _ _ Hk) in Hs.
  unfold clean_record, db_Delete, db_Put in Hs. simpl in Hs. rewrite Hw in Hs.
  destruct (length (prune nowSecs (addresses (UnmarshalXDR v))) =? 0)%nat eqn:Hz.
  { simpl in Hs. by rewrite lookup_delete_eq in Hs. }
  apply Nat.eqb_neq in Hz.
  destruct (length (prune nowSecs (addresses (UnmarshalXDR v)))
            =? length (addresses (UnmarshalXDR v)))%nat eqn:Hl; simpl in Hs.
  - apply Nat.eqb_eq in Hl. rewrite Hk in Hs. injection Hs as <-.
    intros He. rewrite He in Hz. by simpl in Hz.
  - destruct (MarshalXDR _) as [data |] eqn:Hm; simpl in Hs.
    + rewrite lookup_insert_eq in Hs. injection Hs as <-.
      rewrite (UnmarshalXDR_MarshalXDR _ _ Hm). simpl.
      intros He. rewrite He in Hz. by simpl in Hz.
    + rewrite Hk in Hs. injection Hs as <-.
      intros He. rewrite He in Hz. by simpl in Hz.
Qed.

(** A record whose only address has expired is gone after the pass. *)
Lemma clean_pass_single_expired w nowSecs db (k : string) (v : Encoded) (a : address) :
  io_write_err w k = false ->
  db !! k = Some v -> addresses (UnmarshalXDR v) = [a] -> expired nowSecs a = true ->
  sw_db (clean_pass w nowSecs db) !! k = None.
Proof.
  intros Hw Hk Hv Ha. rewrite (clean_pass_lookup _ _ _ _ _ Hk).
  unfold clean_record. rewrite Hv, (prune_single_expired _ _ Ha). simpl.
  unfold db_Delete. rewrite Hw. apply lookup_delete_eq.
Qed.

(** Every turn adds one to exactly one of the two counters, as long as the
    encoder does not fail. *)
Lemma clean_record_counts w nowSecs st (key : string) (val : Encoded) (n : Z) :
  (forall l, is_Some (MarshalXDR l)) ->
  0 <= sw_kept st -> 0 <= sw_deleted st -> sw_kept st + sw_deleted st = n ->
  n + 1 < 2 ^ 63 ->
  let st' := clean_record w nowSecs st key val in
  0 <= sw_kept st' /\ 0 <= sw_deleted st' /\ sw_kept st' + sw_deleted st' = n + 1.
Proof.
  intros Hm Hk Hd Hn Hb. unfold clean_record.
  assert (forall c, 0 <= c <= n -> add64 c 1 = c + 1) as Hadd.
  { intros c Hc. unfold add64. apply wrap64_small. unfold int64_range. lia. }
  destruct (_ =? 0)%nat; simpl.
  { rewrite Hadd by lia. lia. }
  destruct (negb _); simpl.
  - destruct (Hm (mkAddressList (prune nowSecs (addresses (UnmarshalXDR val)))
                                (relays (UnmarshalXDR val)))) as [data ->].
    simpl. rewrite Hadd by lia. lia.
  - rewrite Hadd by lia. lia.
Qed.

Lemma clean_fold_counts w nowSecs (l : list (string * Encoded)) st (n : Z) :
  (forall l, is_Some (MarshalXDR l)) ->
  0 <= sw_kept st -> 0 <= sw_deleted st -> sw_kept st + sw_deleted st = n ->
  n + Z.of_nat (length l) < 2 ^ 63 ->
  let st' := foldl (fun st kv => clean_record w nowSecs st kv.1 kv.2) st l in
  0 <= sw_kept st' /\ 0 <= sw_deleted st' /\
  sw_kept st' + sw_deleted st' = n + Z.of_nat (length l).
Proof.
  intros Hm. revert st n. induction l as [| [k v] l IH]; intros st n Hk Hd Hn Hb.
  - simpl. lia.
  - simpl foldl. simpl length in *.
    destruct (clean_record_counts w nowSecs st k v n Hm Hk Hd Hn ltac:(lia))
      as (Hk' & Hd' & Hn').
    specialize (IH _ (n + 1) Hk' Hd' Hn' ltac:(lia)).
    simpl in IH. replace (n + Z.of_nat (S (length l))) with (n + 1 + Z.of_nat (length l)) by lia.
    exact IH.
Qed.

End SweepFacts.

(** ** The query handler *)

Lemma reply_addresses_filter (now : Z) (addrs : list address) (out : list string) :
  reply_addresses now addrs out
  = out ++ map a_address (List.filter (fun a => negb (expired now a)) addrs).
Proof.
  revert out. induction addrs as [| a addrs IH]; intros out; simpl.
  - by rewrite app_nil_r.
  - destruct (expired now a); simpl; [apply IH |].
    rewrite IH. by rewrite <- app_assoc.
Qed.



Section QueryFacts.
Context {codec : XDRCodec} {net : NetURL} {wire : Wire}.
Implicit Types (st : server) (w : io).

(** The reply that [handleQueryV2] builds for a stored record [val]. *)
Lemma handleQueryV2_stored w (addr : UDPAddr) (buf : string) st
    (pkt : discover_Query) (id : string) (val : Encoded) :
  Query_UnmarshalXDR buf = Some pkt ->
  resolve_id (DeviceID pkt) = Some id ->
  io_get_err w id = false ->
  db st !! id = Some val ->
  let now := Unix (io_time w) in
  let rec := UnmarshalXDR val in
  let fresh := map a_address (List.filter (fun a => negb (expired now a)) (addresses rec)) in
  let ann := mkAnnounce AnnouncementMagic
               (mkDevice (DeviceID pkt) fresh (map to_discover_Relay (relays rec))) in
  handleQueryV2 w addr buf st =
    match fresh with
    | [] => (false, incr_queries st)
    | _ :: _ =>
        match Announce_MarshalXDR ann with
        | None => (false, incr_queries st)
        | Some tb =>
            if io_send_err w then (false, incr_queries st)
            else (false, incr_answered (push_sent addr tb (incr_queries st)))
        end
    end.
Proof.
  intros Hq Hid Hg Hdb now rec fresh ann.
  unfold handleQueryV2. rewrite Hq, Hid.
  unfold get, read_record, db_Get. simpl. rewrite Hg, Hdb.
  fold rec. fold now. rewrite reply_addresses_filter. simpl. fold fresh.
  destruct (addresses rec) as [| a l] eqn:Ha.
  { simpl in fresh. subst fresh. done. }
  simpl length. simpl (0 <? _)%nat. cbv iota.
  destruct fresh as [| s fresh'] eqn:Hf; [done |].
  simpl length. simpl (_ =? 0)%nat. cbv iota. subst ann. done.
Qed.

End QueryFacts.

(** ** The merge of [update] *)

Section MergeFacts.
Context {codec : XDRCodec} {net : NetURL}.
Implicit Types (cur todo : list address) (newAddr exAddr : address) (w : io).

(** With an existing address to compare with, a new address that does not
    parse leaves the loop at once. *)
Lemma merge_scan_unparsed newAddr (i : nat) exAddr todo cur :
  normalize (a_address newAddr) = None ->
  merge_scan newAddr i (exAddr :: todo) cur = Some cur.
Proof.
  unfold normalize. intros Hn. simpl.
  destruct (url_Parse (a_address newAddr)) as [u |]; [| done].
  destruct (SplitHostPort (URL_Host u)) as [[h p] |]; [done | done].
Qed.

Lemma merge_scan_cons newAddr (i : nat) exAddr todo cur (s : string) :
  normalize (a_address newAddr) = Some s ->
  merge_scan newAddr i (exAddr :: todo) cur =
    if decide (normalize (a_address exAddr) = Some s)
    then Some (<[i:=newAddr]> cur)
    else merge_scan newAddr (S i) todo cur.
Proof.
  unfold normalize. intros Hn. simpl.
  destruct (url_Parse (a_address newAddr)) as [u |]; [| done].
  destruct (SplitHostPort (URL_Host u)) as [[h p] |]; [| done].
  injection Hn as <-.
  destruct (url_Parse (a_address exAddr)) as [u' |]; [| by case_decide].
  destruct (SplitHostPort (URL_Host u')) as [[h' p'] |]; [| by case_decide].
  destruct (String.eqb _ _) eqn:He.
  - apply String.eqb_eq in He. rewrite He. by rewrite decide_True.
  - apply String.eqb_neq in He. rewrite decide_False; [done |]. congruence.
Qed.

Lemma merge_scan_no_match newAddr (i : nat) todo cur (s : string) :
  normalize (a_address newAddr) = Some s ->
  (forall e, e ∈ todo -> normalize (a_address e) ≠ Some s) ->
  merge_scan newAddr i todo cur = None.
Proof.
  intros Hn. revert i. induction todo as [| e todo IH]; intros i Hno; [done |].
  rewrite (merge_scan_cons _ _ _ _ _ _ Hn).
  rewrite decide_False by (apply Hno; left).
  apply IH. intros e' He'. apply Hno. by right.
Qed.

Lemma merge_scan_match newAddr (i : nat) (pre : list address) exAddr todo cur (s : string) :
  normalize (a_address newAddr) = Some s ->
  (forall e, e ∈ pre -> normalize (a_address e) ≠ Some s) ->
  normalize (a_address exAddr) = Some s ->
  merge_scan newAddr i (pre ++ exAddr :: todo) cur = Some (<[(i + length pre)%nat:=newAddr]> cur).
Proof.
  intros Hn. revert i. induction pre as [| e pre IH]; intros i Hno Hex.
  - simpl app. rewrite (merge_scan_cons _ _ _ _ _ _ Hn).
    rewrite decide_True by done. simpl. by rewrite Nat.add_0_r.
  - simpl app. rewrite (merge_scan_cons _ _ _ _ _ _ Hn).
    rewrite decide_False by (apply Hno; left).
    rewrite IH; [| intros e' He'; apply Hno; by right | done].
    simpl. do 2 f_equal. lia.
Qed.

(** The four cases of one turn of the outer loop. *)
Lemma merge_one_nil newAddr : merge_one [] newAddr = [newAddr].
Proof. done. Qed.

Lemma merge_one_skip cur newAddr :
  cur ≠ [] -> normalize (a_address newAddr) = None -> merge_one cur newAddr = cur.
Proof.
  intros Hc Hn. unfold merge_one. destruct cur as [| e cur]; [done |].
  by rewrite merge_scan_unparsed.
Qed.

Lemma merge_one_append cur newAddr (s : string) :
  normalize (a_address newAddr) = Some s ->
  (forall e, e ∈ cur -> normalize (a_address e) ≠ Some s) ->
  merge_one cur newAddr = cur ++ [newAddr].
Proof.
  intros Hn Hno. unfold merge_one. by rewrite (merge_scan_no_match _ _ _ _ s).
Qed.

Lemma merge_one_replace cur newAddr (s : string) (i : nat) exAddr :
  normalize (a_address newAddr) = Some s ->
  cur !! i = Some exAddr ->
  normalize (a_address exAddr) = Some s ->
  (forall j e, (j < i)%nat -> cur !! j = Some e -> normalize (a_address e) ≠ Some s) ->
  merge_one cur newAddr = <[i:=newAddr]> cur.
Proof.
  intros Hn Hi Hex Hbefore. unfold merge_one.
  rewrite <- (take_drop_middle cur i exAddr Hi) at 1.
  rewrite (merge_scan_match _ _ _ _ _ _ s); [| done | | done].
  - rewrite length_take. apply lookup_lt_Some in Hi.
    by replace (0 + i `min` length cur)%nat with i by lia.
  - intros e He. apply list_elem_of_lookup in He as [j Hj].
    apply lookup_take_Some in Hj as [Hj Hlt]. by eapply Hbefore.
Qed.

(** The same address again is matched with itself. *)
Lemma merge_one_same (a : string) (t1 t2 : Z) (s : string) :
  normalize a = Some s ->
  merge_one [mkAddress a t1] (mkAddress a t2) = [mkAddress a t2].
Proof.
  intros Hn.
  by rewrite (merge_one_replace _ _ s 0%nat (mkAddress a t1)); [| | | | intros; lia].
Qed.

(** What [update] leaves under [id] when storage and encoder work. *)
Lemma update_read w (db : gmap string Encoded) (id : string)
    (addrs : list address) (rs : list discover_Relay) :
  (forall l, is_Some (MarshalXDR l)) ->
  io_get_err w id = false -> io_write_err w id = false ->
  read_record w (update w db id addrs rs) id
  = mkAddressList (merge (addresses (read_record w db id)) addrs) (map to_relay rs).
Proof.
  intros Hm Hg Hw. unfold update.
  destruct (Hm (mkAddressList (merge (addresses (read_record w db id)) addrs)
                              (map to_relay rs))) as [data Hd].
  rewrite Hd. unfold read_record at 1. unfold db_Get, db_Put. rewrite Hg, Hw.
  rewrite lookup_insert_eq. by apply UnmarshalXDR_MarshalXDR.
Qed.

Lemma read_record_absent w (db : gmap string Encoded) (id : string) :
  db !! id = None -> read_record w db id = zero_addressList.
Proof.
  intros Hn. unfold read_record, db_Get. destruct (io_get_err w id); [done |].
  by rewrite Hn.
Qed.

End MergeFacts.

(** ** The announce handler *)

Section AnnounceFacts.
Context {codec : XDRCodec} {net : NetURL} {wire : Wire}.
Implicit Types (st : server) (w : io) (ip : list Z).

Lemma announce_addrs_acc ip (now : Z) (l : list string) (acc : list address) :
  announce_addrs ip now l acc = acc ++ announce_addrs ip now l [].
Proof.
  revert acc. induction l as [| s l IH]; intros acc; simpl.
  - by rewrite app_nil_r.
  - destruct (url_Parse s) as [u |]; [| apply IH].
    destruct (SplitHostPort (URL_Host u)) as [[host port] |]; [| apply IH].
    rewrite (IH (acc ++ _)), (IH [_]). by rewrite app_assoc.
Qed.

Lemma announce_addrs_cons ip (now : Z) (s : string) (l : list string) :
  announce_addrs ip now (s :: l) [] = announce_addrs ip now [s] [] ++ announce_addrs ip now l [].
Proof.
  simpl. destruct (url_Parse s) as [u |]; [| done].
  destruct (SplitHostPort (URL_Host u)) as [[host port] |]; [| done].
  by rewrite announce_addrs_acc.
Qed.

Lemma announce_addrs_app ip (now : Z) (l1 l2 : list string) :
  announce_addrs ip now (l1 ++ l2) [] = announce_addrs ip now l1 [] ++ announce_addrs ip now l2 [].
Proof.
  induction l1 as [| s l1 IH]; [done |].
  change ((s :: l1) ++ l2) with (s :: (l1 ++ l2)).
  rewrite (announce_addrs_cons _ _ s (l1 ++ l2)), IH, (announce_addrs_cons _ _ s l1).
  by rewrite <- app_assoc.
Qed.

(** An address with an empty host gets the source IP. *)
Lemma announce_addrs_empty_host ip (now : Z) (s : string) (u : URL) (port : string) :
  url_Parse s = Some u -> SplitHostPort (URL_Host u) = Some (EmptyString, port) ->
  announce_addrs ip now [s] []
  = [mkAddress (URL_String (URL_withHost u (JoinHostPort (IP_String ip) port))) now].
Proof. intros Hp Hs. simpl. by rewrite Hp, Hs. Qed.

(** An address with a host is stored as the library writes the parsed URI. *)
Lemma announce_addrs_with_host ip (now : Z) (s : string) (u : URL) (host port : string) :
  url_Parse s = Some u -> SplitHostPort (URL_Host u) = Some (host, port) ->
  host ≠ EmptyString ->
  announce_addrs ip now [s] [] = [mkAddress (URL_String u) now].
Proof.
  intros Hp Hs Hh. simpl. rewrite Hp, Hs.
  destruct host; [done | done].
Qed.

(** An address that does not parse as a URI with a host and a port is
    left out. *)
Lemma announce_addrs_unparsed ip (now : Z) (s : string) :
  normalize s = None -> announce_addrs ip now [s] [] = [].
Proof.
  unfold normalize. intros Hn. simpl.
  destruct (url_Parse s) as [u |]; [| done].
  by destruct (SplitHostPort (URL_Host u)) as [[host port] |].
Qed.

Lemma handleAnnounceV2_ok w (addr : UDPAddr) (buf : string) st
    (pkt : discover_Announce) (status : xdr_status) (id : string) :
  Announce_UnmarshalXDR buf = (pkt, status) -> status ≠ XdrError ->
  resolve_id (ID (This pkt)) = Some id ->
  handleAnnounceV2 w addr buf st =
    (false,
     set_db (update w (db st) id
               (announce_addrs (source_ip addr) (Unix (io_time w)) (Addresses (This pkt)) [])
               (Relays (This pkt)))
            (incr_announces st)).
Proof.
  intros Hd Hs Hid. unfold handleAnnounceV2. rewrite Hd.
  destruct status; [| | done]; simpl; by rewrite Hid.
Qed.

End AnnounceFacts.

(** The source IP is taken in its four-byte form when it has one. *)
Lemma source_ip_v4 (a b c d port : Z) :
  source_ip (mkUDPAddr [a; b; c; d] port) = [a; b; c; d].
Proof. done. Qed.

Lemma source_ip_v4_mapped (a b c d port : Z) :
  source_ip (mkUDPAddr [0; 0; 0; 0; 0; 0; 0; 0; 0; 0; 255; 255; a; b; c; d] port) = [a; b; c; d].
Proof. reflexivity. Qed.

Lemma source_ip_v6 (ip : list Z) (port : Z) :
  length ip = 16%nat -> IP_To4 ip = None -> source_ip (mkUDPAddr ip port) = ip.
Proof.
  intros Hl H4. unfold source_ip. simpl. rewrite H4.
  unfold IP_To16. by rewrite Hl.
Qed.

(** ** The token bucket *)

Lemma time_Sub_small (t u : Z) : 0 <= u <= t -> t < 2 ^ 62 -> time_Sub t u = t - u.
Proof. intros Hu Ht. unfold time_Sub, sat64. lia. Qed.

Lemma quot64_small (a b : Z) : 0 <= a < 2 ^ 63 -> 0 < b -> quot64 a b = a / b.
Proof.
  intros Ha Hb. unfold quot64. rewrite Z.quot_div_nonneg by lia.
  apply wrap64_small. unfold int64_range.
  pose proof (Z.div_pos a b ltac:(lia) Hb).
  pose proof (Z.div_le_upper_bound a b a Hb ltac:(nia)). lia.
Qed.

(** The tick of the bucket created at [t1] when the clock reads [t]. *)
Lemma tick_small (t t1 I : Z) :
  0 <= t1 <= t -> t < 2 ^ 62 -> 0 < I ->
  quot64 (time_Sub t t1) I = (t - t1) / I /\ 0 <= (t - t1) / I < 2 ^ 62.
Proof.
  intros Ht1 Ht HI. rewrite time_Sub_small by lia.
  rewrite quot64_small by lia. split; [done |].
  pose proof (Z.div_pos (t - t1) I ltac:(lia) HI).
  pose proof (Z.div_le_upper_bound (t - t1) I (t - t1) HI ltac:(nia)). lia.
Qed.

Lemma tick_window (t t1 I : Z) : t1 <= t < t1 + I -> (t - t1) / I = 0.
Proof. intros Ht. apply Z.div_small. lia. Qed.

Lemma tick_paced (t t' t1 I : Z) :
  0 < I -> t + I <= t' -> (t - t1) / I + 1 <= (t' - t1) / I.
Proof.
  intros HI Ht. rewrite <- Z.div_add by lia.
  apply Z.div_le_mono; lia.
Qed.

(** Taking a token while the bucket's tick has not moved: no refill. *)
Lemma TakeAvailable_same_tick (now : Z) (b : Bucket) :
  quantum b = 1 -> 0 <= avail b <= capacity b -> capacity b < 2 ^ 62 ->
  quot64 (time_Sub now (startTime b)) (fillInterval b) = availTick b ->
  TakeAvailable now 1 b =
    if 0 <? avail b
    then (1, mkBucket (startTime b) (capacity b) (quantum b) (fillInterval b)
                      (avail b - 1) (availTick b))
    else (0, b).
Proof.
  intros Hq Ha Hc Ht. unfold TakeAvailable. simpl (1 <=? 0). cbv iota.
  assert (adjust now b = b) as ->.
  { unfold adjust. destruct (capacity b <=? avail b) eqn:Hfull; [done |].
    rewrite Ht, Hq. unfold sub64, mul64, add64.
    rewrite Z.sub_diag. rewrite (wrap64_small 0) by (unfold int64_range; lia).
    rewrite Z.mul_0_l, (wrap64_small 0) by (unfold int64_range; lia).
    rewrite Z.add_0_r, wrap64_small by (unfold int64_range; lia).
    replace (capacity b <? avail b) with false by (symmetry; apply Z.ltb_ge; lia).
    destruct b; simpl in *; by subst. }
  destruct (0 <? avail b) eqn:Hpos.
  - apply Z.ltb_lt in Hpos.
    replace (avail b <=? 0) with false by (symmetry; apply Z.leb_gt; lia).
    replace (avail b <? 1) with false by (symmetry; apply Z.ltb_ge; lia).
    unfold sub64. by rewrite wrap64_small by (unfold int64_range; lia).
  - apply Z.ltb_ge in Hpos.
    by replace (avail b <=? 0) with true by (symmetry; apply Z.leb_le; lia).
Qed.

(** Taking a token after at least one more tick: there is one. *)
Lemma TakeAvailable_next_tick (now t1 I B tick tick' : Z) (b : Bucket) :
  bucket_ok t1 I B tick b -> 0 < B < 2 ^ 62 ->
  quot64 (time_Sub now t1) I = tick' -> tick < tick' < 2 ^ 62 ->
  exists b', TakeAvailable now 1 b = (1, b') /\ bucket_ok t1 I B tick' b'.
Proof.
  intros (Hs & Hc & Hq & Hi & Ha & Ht) HB Htick Hlt.
  unfold TakeAvailable. simpl (1 <=? 0). cbv iota.
  assert (exists b1, adjust now b = b1 /\ bucket_ok t1 I B tick' b1 /\ 1 <= avail b1)
    as (b1 & -> & (Hs1 & Hc1 & Hq1 & Hi1 & Ha1 & Ht1) & Hone).
  { unfold adjust. rewrite Hs, Hi, Htick, Hc, Hq.
    destruct (B <=? avail b) eqn:Hfull.
    - apply Z.leb_le in Hfull. exists b. split; [done |].
      split; [| lia]. unfold bucket_ok. repeat split; try done; lia.
    - apply Z.leb_gt in Hfull. eexists. split; [reflexivity |].
      unfold sub64, mul64, add64.
      rewrite (wrap64_small (tick' - _)) by (unfold int64_range; lia).
      rewrite Z.mul_1_r, (wrap64_small (tick' - _)) by (unfold int64_range; lia).
      rewrite wrap64_small by (unfold int64_range; lia).
      destruct (B <? _) eqn:Hcap.
      + unfold bucket_ok. simpl. repeat split; lia.
      + apply Z.ltb_ge in Hcap. unfold bucket_ok. simpl. repeat split; lia. }
  replace (avail b1 <=? 0) with false by (symmetry; apply Z.leb_gt; lia).
  replace (avail b1 <? 1) with false by (symmetry; apply Z.ltb_ge; lia).
  eexists. split; [reflexivity |].
  unfold sub64. rewrite wrap64_small by (unfold int64_range; lia).
  unfold bucket_ok. simpl. repeat split; lia.
Qed.

(** ** The cache *)

Lemma lru_find_head (key : string) (v : Bucket) (l : list (string * Bucket)) :
  lru_find key ((key, v) :: l) = Some v.
Proof. simpl. by rewrite String.eqb_refl. Qed.

Lemma lru_Get_head (key : string) (v : Bucket) (m : Z) (l : list (string * Bucket)) :
  lru_Get key (mkCache m ((key, v) :: l)) = (Some v, mkCache m ((key, v) :: l)).
Proof. unfold lru_Get. simpl. by rewrite String.eqb_refl. Qed.

(** A new key ends up at the front of the list, whatever is dropped at the
    back. *)
Lemma lru_Add_head (key : string) (v : Bucket) (c : Cache) :
  0 <= MaxEntries c -> lru_find key (ll c) = None ->
  exists l, lru_Add key v c = mkCache (MaxEntries c) ((key, v) :: l).
Proof.
  intros Hm Hf. unfold lru_Add. rewrite Hf.
  destruct (negb (MaxEntries c =? 0) && _) eqn:Hev; [| by eexists].
  apply andb_true_iff in Hev as [Hnz Hlen].
  apply negb_true_iff, Z.eqb_neq in Hnz. apply Z.ltb_lt in Hlen.
  destruct (ll c) as [| e l]; [simpl in Hlen; lia |].
  by eexists.
Qed.

(** ** [limit] *)

Section LimitFacts.
Context {codec : XDRCodec} {net : NetURL}.
Implicit Types (st : server) (w : io) (cfg : config).

(** A source that is not in the cache: the packet passes, a full bucket is
    made, nothing is taken from it. *)
Lemma limit_miss cfg w (addr : UDPAddr) st (I : Z) :
  lru_find (IP_String (IP addr)) (ll (limiter st)) = None ->
  limit_interval cfg = Some I -> 0 < I -> 0 < limitBurst cfg ->
  limit cfg w addr st =
    Running (false,
             set_limiter (lru_Add (IP_String (IP addr))
                            (mkBucket (io_time w) (limitBurst cfg) 1 I (limitBurst cfg) 0)
                            (limiter st)) st).
Proof.
  intros Hf HI Hpos HB. unfold limit, lru_Get. rewrite Hf, HI.
  unfold NewBucket.
  replace (I <=? 0) with false by (symmetry; apply Z.leb_gt; lia).
  by replace (limitBurst cfg <=? 0) with false by (symmetry; apply Z.leb_gt; lia).
Qed.

(** A source whose bucket is at the front of the cache. *)
Lemma limit_hit cfg w (addr : UDPAddr) st (b : Bucket) (rest : list (string * Bucket)) :
  ll (limiter st) = (IP_String (IP addr), b) :: rest ->
  limit cfg w addr st =
    let '(n, b') := TakeAvailable (io_time w) 1 b in
    let st' := set_limiter (mkCache (MaxEntries (limiter st))
                                    ((IP_String (IP addr), b') :: rest)) st in
    if negb (n =? 1) then Running (true, incr_limited st') else Running (false, st').
Proof.
  intros Hl. unfold limit. destruct (limiter st) as [m l] eqn:Hc. simpl in Hl. subst l.
  rewrite lru_Get_head. destruct (TakeAvailable (io_time w) 1 b) as [n b'].
  unfold lru_poke. simpl. by rewrite String.eqb_refl.
Qed.


(** Packets that arrive before the first refill take the tokens one by
    one. *)
Lemma limit_seq_burst cfg (addr : UDPAddr) (t1 I : Z) (ws : list io) st
    (a : Z) (rest : list (string * Bucket)) :
  0 <= t1 -> t1 + I < 2 ^ 62 -> 0 < I -> limitBurst cfg < 2 ^ 62 ->
  Forall (fun w => t1 <= io_time w < t1 + I) ws ->
  ll (limiter st) = (IP_String (IP addr), mkBucket t1 (limitBurst cfg) 1 I a 0) :: rest ->
  Z.of_nat (length ws) <= a <= limitBurst cfg ->
  exists st',
    limit_seq cfg ws addr st = Running (replicate (length ws) false, st')
    /\ ll (limiter st')
       = (IP_String (IP addr),
          mkBucket t1 (limitBurst cfg) 1 I (a - Z.of_nat (length ws)) 0) :: rest
    /\ MaxEntries (limiter st') = MaxEntries (limiter st)
    /\ limited st' = limited st.
Proof.
  intros Ht1 Hend HI HB Hws. revert st a.
  induction Hws as [| w ws Hw Hws IH]; intros st a Hl Ha.
  - exists st. simpl. by rewrite Z.sub_0_r.
  - simpl length in *. simpl limit_seq.
    rewrite (limit_hit _ _ _ _ _ _ Hl).
    rewrite TakeAvailable_same_tick; simpl; [| done | lia | lia |].
    2: { destruct (tick_small (io_time w) t1 I ltac:(lia) ltac:(lia) HI) as [-> _].
         by apply tick_window. }
    replace (0 <? a) with true by (symmetry; apply Z.ltb_lt; lia).
    simpl.
    edestruct (IH (set_limiter (mkCache (MaxEntries (limiter st))
                 ((IP_String (IP addr), mkBucket t1 (limitBurst cfg) 1 I (a - 1) 0) :: rest)) st)
                 (a - 1)) as (st' & -> & Hl' & Hm' & Hlim'); [done | lia |].
    exists st'. split; [done |]. split; [| done].
    rewrite Hl'. do 3 f_equal. lia.
Qed.

(** With the bucket empty and no refill, the next packet is ignored and
    counted. *)
Lemma limit_empty cfg w (addr : UDPAddr) (t1 I : Z) st (rest : list (string * Bucket)) :
  0 <= t1 -> t1 + I < 2 ^ 62 -> 0 < I -> 0 <= limitBurst cfg < 2 ^ 62 ->
  t1 <= io_time w < t1 + I ->
  ll (limiter st) = (IP_String (IP addr), mkBucket t1 (limitBurst cfg) 1 I 0 0) :: rest ->
  exists st', limit cfg w addr st = Running (true, st')
              /\ limited st' = incr (limited st).
Proof.
  intros Ht1 Hend HI HB Hw Hl.
  rewrite (limit_hit _ _ _ _ _ _ Hl).
  rewrite TakeAvailable_same_tick; simpl; [| done | lia | lia |].
  2: { destruct (tick_small (io_time w) t1 I ltac:(lia) ltac:(lia) HI) as [-> _].
       by apply tick_window. }
  by eexists.
Qed.

(** Packets that are at least one interval apart always find a token. *)
Lemma limit_seq_paced cfg (addr : UDPAddr) (t1 I tk : Z) (ws : list io) st
    (b : Bucket) (rest : list (string * Bucket)) :
  0 <= t1 <= tk -> 0 < I -> 0 < limitBurst cfg < 2 ^ 62 ->
  paced I tk (map io_time ws) ->
  Forall (fun w => io_time w < 2 ^ 62) ws ->
  ll (limiter st) = (IP_String (IP addr), b) :: rest ->
  bucket_ok t1 I (limitBurst cfg) ((tk - t1) / I) b ->
  exists st',
    limit_seq cfg ws addr st = Running (replicate (length ws) false, st')
    /\ limited st' = limited st.
Proof.
  intros Ht1 HI HB Hp Hws. revert st tk b Ht1 Hp.
  induction Hws as [| w ws Hw Hws IH]; intros st tk b Ht1 Hp Hl Hb.
  - by exists st.
  - simpl in Hp. destruct Hp as [Hgap Hp].
    simpl length. simpl limit_seq.
    rewrite (limit_hit _ _ _ _ _ _ Hl).
    destruct (tick_small (io_time w) t1 I ltac:(lia) Hw HI) as [Htick Hrange].
    pose proof (tick_paced tk (io_time w) t1 I HI Hgap) as Hnext.
    destruct (TakeAvailable_next_tick (io_time w) t1 I (limitBurst cfg)
                ((tk - t1) / I) ((io_time w - t1) / I) b Hb HB Htick ltac:(lia))
      as (b' & -> & Hb').
    simpl.
    edestruct (IH (set_limiter (mkCache (MaxEntries (limiter st))
                 ((IP_String (IP addr), b') :: rest)) st) (io_time w) b')
      as (st' & -> & Hlim'); [lia | done | done | done |].
    by exists st'.
Qed.

End LimitFacts.

(** * The claims *)

(** C1.  A sweep pass is meant to leave no address older than the
    retention window in any record.  The pruning loop moves the last
    address into the slot of an expired one and then steps past that slot,
    so the moved address is never looked at: with a record of two
    addresses, both two hours old, the pass removes the first, keeps the
    second although it has expired too, and counts the record as kept. *)
Theorem C1_sweep_leaves_expired_address :
  let old1 := mkAddress "tcp://1.2.3.4:9000" 0 in
  let old2 := mkAddress "tcp://5.6.7.8:9000" 0 in
  let db0 : gmap string addressList := {[ sample_id := mkAddressList [old1; old2] [] ]} in
  let after := @clean_pass plain_codec (calm 7200000000000) 7200 db0 in
  expired 7200 old1 = true /\ expired 7200 old2 = true /\
  sw_db after !! sample_id = Some (mkAddressList [old2] []) /\
  sw_kept after = 1 /\ sw_deleted after = 0.
Proof. vm_compute. done. Qed.

(** C6.  One sweep pass reports counts with [kept + deleted] equal to the
    number of records in the registry before the pass (the encoder of
    records being one that does not fail, and the number of records one
    that an [int64] holds). *)
Theorem C6_sweep_counts {codec : XDRCodec} (w : io) (nowSecs : Z)
    (db : gmap string Encoded) :
  (forall l, is_Some (MarshalXDR l)) ->
  Z.of_nat (size db) < 2 ^ 63 ->
  sw_kept (clean_pass w nowSecs db) + sw_deleted (clean_pass w nowSecs db)
  = Z.of_nat (size db).
Proof.
  intros Hm Hsz. unfold clean_pass.
  destruct (clean_fold_counts w nowSecs (map_to_list db) (mkSweep db 0 0) 0 Hm)
    as (_ & _ & Hsum); simpl; try lia.
  - rewrite length_map_to_list. lia.
  - rewrite Hsum, length_map_to_list. lia.
Qed.

Lemma C6_sweep_counts_witness :
  let db0 : gmap string addressList :=
    {[ sample_id := mkAddressList [mkAddress "tcp://1.2.3.4:9000" 0] [];
       "fedcba9876543210fedcba9876543210" :=
         mkAddressList [mkAddress "tcp://5.6.7.8:9000" 7000] [] ]} in
  (forall l, is_Some (@MarshalXDR plain_codec l)) /\
  Z.of_nat (size db0) < 2 ^ 63 /\
  sw_kept (@clean_pass plain_codec (calm 7200000000000) 7200 db0)
  + sw_deleted (@clean_pass plain_codec (calm 7200000000000) 7200 db0)
  = Z.of_nat (size db0).
Proof.
  intros db0.
  assert (forall l, is_Some (@MarshalXDR plain_codec l)) as Hm by (intros l; by eexists).
  assert (Z.of_nat (size db0) < 2 ^ 63) as Hsz by (vm_compute; done).
  split; [exact Hm |]. split; [exact Hsz |].
  exact (@C6_sweep_counts plain_codec (calm 7200000000000) 7200 db0 Hm Hsz).
Defined.





(** C2.  [update] merges the incoming addresses one after the other into
    the stored list.  For a new address with a port-normalised form: when
    some stored address has the same port-normalised form, the first such
    entry is overwritten in place, address string and timestamp, by the
    new one; when none has, the new address is appended.  Hence the same
    address announced twice is stored once, with the second timestamp, and
    tcp://1.2.3.4:9000 followed by tcp://1.2.3.4:9001 leaves the second
    alone. *)
Theorem C2_update_merge_rule {codec : XDRCodec} {net : NetURL}
    (w : io) (db : gmap string Encoded) (id : string) :
  (forall l, is_Some (MarshalXDR l)) ->
  io_get_err w id = false -> io_write_err w id = false ->
  (forall addrs rs,
      addresses (read_record w (update w db id addrs rs) id)
      = foldl merge_one (addresses (read_record w db id)) addrs)
  /\ (forall cur newAddr s,
        normalize (a_address newAddr) = Some s ->
        (forall i exAddr,
            cur !! i = Some exAddr -> normalize (a_address exAddr) = Some s ->
            (forall j e, (j < i)%nat -> cur !! j = Some e ->
                         normalize (a_address e) ≠ Some s) ->
            merge_one cur newAddr = <[i:=newAddr]> cur)
        /\ ((forall e, e ∈ cur -> normalize (a_address e) ≠ Some s) ->
            merge_one cur newAddr = cur ++ [newAddr]))
  /\ (forall a t1 t2 rs1 rs2 s,
        db !! id = None -> normalize a = Some s ->
        addresses (read_record w
                     (update w (update w db id [mkAddress a t1] rs1) id
                             [mkAddress a t2] rs2) id)
        = [mkAddress a t2])
  /\ (forall t1 t2 rs1 rs2,
        db !! id = None ->
        addresses (read_record w
                     (@update codec go_net w
                        (@update codec go_net w db id
                           [mkAddress "tcp://1.2.3.4:9000" t1] rs1) id
                        [mkAddress "tcp://1.2.3.4:9001" t2] rs2) id)
        = [mkAddress "tcp://1.2.3.4:9001" t2]).
Proof.
  intros Hm Hg Hw.
  split; [intros addrs rs; by rewrite (update_read w db id addrs rs Hm Hg Hw) |].
  split.
  { intros cur newAddr s Hn. split.
    - intros i exAddr Hi Hex Hbefore. by eapply merge_one_replace.
    - intros Hno. by eapply merge_one_append. }
  split.
  - intros a t1 t2 rs1 rs2 s Hnone Hn.
    rewrite (update_read w _ id _ rs2 Hm Hg Hw).
    rewrite (update_read w db id _ rs1 Hm Hg Hw).
    rewrite (read_record_absent w db id Hnone).
    unfold zero_addressList, merge. cbn [addresses foldl].
    rewrite merge_one_nil. by rewrite (merge_one_same a t1 t2 s Hn).
  - intros t1 t2 rs1 rs2 Hnone.
    rewrite (@update_read codec go_net w _ id _ rs2 Hm Hg Hw).
    rewrite (@update_read codec go_net w db id _ rs1 Hm Hg Hw).
    rewrite (read_record_absent w db id Hnone).
    unfold zero_addressList, merge. cbn [addresses foldl].
    rewrite merge_one_nil.
    assert (@normalize go_net "tcp://1.2.3.4:9001" = Some "tcp://1.2.3.4:22000") as Hn2
      by (vm_compute; reflexivity).
    assert (@normalize go_net "tcp://1.2.3.4:9000" = Some "tcp://1.2.3.4:22000") as Hn1
      by (vm_compute; reflexivity).
    rewrite (@merge_one_replace go_net [mkAddress "tcp://1.2.3.4:9000" t1]
               (mkAddress "tcp://1.2.3.4:9001" t2) "tcp://1.2.3.4:22000" 0%nat
               (mkAddress "tcp://1.2.3.4:9000" t1) Hn2 eq_refl Hn1); [done |].
    intros; lia.
Qed.

Lemma C2_update_merge_rule_witness :
  let w := calm 0 in
  let db0 : gmap string addressList := ∅ in
  ((forall l, is_Some (@MarshalXDR plain_codec l))
   /\ io_get_err w sample_id = false /\ io_write_err w sample_id = false)
  /\ addresses (@read_record plain_codec w
        (@update plain_codec go_net w
           (@update plain_codec go_net w db0 sample_id
              [mkAddress "tcp://1.2.3.4:9000" 100] []) sample_id
           [mkAddress "tcp://1.2.3.4:9000" 200] []) sample_id)
     = [mkAddress "tcp://1.2.3.4:9000" 200]
  /\ addresses (@read_record plain_codec w
        (@update plain_codec go_net w
           (@update plain_codec go_net w db0 sample_id
              [mkAddress "tcp://1.2.3.4:9000" 100] []) sample_id
           [mkAddress "tcp://1.2.3.4:9001" 200] []) sample_id)
     = [mkAddress "tcp://1.2.3.4:9001" 200]
  /\ @merge_one go_net [mkAddress "tcp://5.6.7.8:9000" 50]
                       (mkAddress "tcp://1.2.3.4:9000" 100)
     = [mkAddress "tcp://5.6.7.8:9000" 50; mkAddress "tcp://1.2.3.4:9000" 100].
Proof.
  intros w db0.
  assert (forall l, is_Some (@MarshalXDR plain_codec l)) as Hm by (intros l; by eexists).
  assert (io_get_err w sample_id = false) as Hg by reflexivity.
  assert (io_write_err w sample_id = false) as Hw by reflexivity.
  split; [done |].
  destruct (@C2_update_merge_rule plain_codec go_net w db0 sample_id Hm Hg Hw)
    as (_ & Hrule & Hsame & Hport).
  split.
  { apply (Hsame "tcp://1.2.3.4:9000" 100 200 [] [] "tcp://1.2.3.4:22000");
      [vm_compute; reflexivity | vm_compute; reflexivity]. }
  split.
  { apply (Hport 100 200 [] []). vm_compute; reflexivity. }
  destruct (Hrule [mkAddress "tcp://5.6.7.8:9000" 50] (mkAddress "tcp://1.2.3.4:9000" 100)
              "tcp://1.2.3.4:22000" ltac:(vm_compute; reflexivity)) as [_ Happ].
  apply Happ. intros e He. apply list_elem_of_singleton in He as ->.
  vm_compute. discriminate.
Defined.


(** C7, as stated, fails on addresses with a host: one without a port is
    dropped, and one with an upper-case scheme is stored as the library
    writes it back, neither of them verbatim. *)
Lemma C7_counterexample :
  let ip := [203; 0; 113; 5] in
  (URL_Host <$> @url_Parse go_net "tcp://1.2.3.4" = Some "1.2.3.4"
   /\ @announce_addrs go_net ip 1000 ["tcp://1.2.3.4"] [] = [])
  /\ (URL_Host <$> @url_Parse go_net "TCP://1.2.3.4:9000" = Some "1.2.3.4:9000"
      /\ @announce_addrs go_net ip 1000 ["TCP://1.2.3.4:9000"] []
         = [mkAddress "tcp://1.2.3.4:9000" 1000]
      /\ @announce_addrs go_net ip 1000 ["TCP://1.2.3.4:9000"] []
         ≠ [mkAddress "TCP://1.2.3.4:9000" 1000]).
Proof. vm_compute. repeat split; discriminate. Qed.

(** C7, amended.  The announce handler hands to [update] one address for
    every announced address that parses as a URI with a host and a port,
    in order, and none for the others.  When the host is empty it is
    replaced by the source IP, in its four-byte form when it has one and
    in its sixteen-byte form otherwise, joined with the announced port: so
    tcp://:4000 from 203.0.113.5 is stored as tcp://203.0.113.5:4000.
    When the host is not empty, the address stored is the parsed URI as
    the library writes it back, host and port untouched. *)
Theorem C7_announce_host_fill {codec : XDRCodec} {net : NetURL} {wire : Wire}
    (w : io) (addr : UDPAddr) (buf : string) (st : server)
    (pkt : discover_Announce) (status : xdr_status) (id : string) :
  Announce_UnmarshalXDR buf = (pkt, status) -> status ≠ XdrError ->
  resolve_id (ID (This pkt)) = Some id ->
  let now := Unix (io_time w) in
  let ip := source_ip addr in
  db (handleAnnounceV2 w addr buf st).2
  = update w (db st) id (announce_addrs ip now (Addresses (This pkt)) []) (Relays (This pkt))
  /\ (forall l1 l2,
        announce_addrs ip now (l1 ++ l2) []
        = announce_addrs ip now l1 [] ++ announce_addrs ip now l2 [])
  /\ (forall s u port,
        url_Parse s = Some u -> SplitHostPort (URL_Host u) = Some (EmptyString, port) ->
        announce_addrs ip now [s] []
        = [mkAddress (URL_String (URL_withHost u (JoinHostPort (IP_String ip) port))) now])
  /\ (forall s u host port,
        url_Parse s = Some u -> SplitHostPort (URL_Host u) = Some (host, port) ->
        host ≠ EmptyString ->
        announce_addrs ip now [s] [] = [mkAddress (URL_String u) now])
  /\ (forall s, normalize s = None -> announce_addrs ip now [s] [] = [])
  /\ (forall a b c d,
        IP addr = [a; b; c; d] \/ IP addr = v4InV6Prefix ++ [a; b; c; d] ->
        ip = [a; b; c; d])
  /\ (length (IP addr) = 16%nat -> IP_To4 (IP addr) = None -> ip = IP addr)
  /\ @announce_addrs go_net [203; 0; 113; 5] now ["tcp://:4000"] []
     = [mkAddress "tcp://203.0.113.5:4000" now].
Proof.
  intros Hd Hs Hid now ip.
  split; [by rewrite (handleAnnounceV2_ok w addr buf st pkt status id Hd Hs Hid) |].
  split; [apply announce_addrs_app |].
  split; [intros; by apply announce_addrs_empty_host |].
  split; [intros; by eapply announce_addrs_with_host |].
  split; [intros; by apply announce_addrs_unparsed |].
  split.
  { intros a b c d [Hip | Hip]; subst ip; destruct addr as [i p]; simpl in Hip; subst i.
    - apply source_ip_v4.
    - apply source_ip_v4_mapped. }
  split.
  { intros Hl H4. subst ip. destruct addr as [i p]. by apply source_ip_v6. }
  reflexivity.
Qed.

Lemma C7_announce_host_fill_witness :
  let pkt := mkAnnounce 2642000960 (mkDevice sample_id ["tcp://:4000"] []) in
  let wire := fixed_wire pkt XdrOk None in
  let w := calm 1000000000000 in
  let st : @server plain_codec := @start_server plain_codec default_config ∅ in
  (@Announce_UnmarshalXDR wire "" = (pkt, XdrOk) /\ XdrOk ≠ XdrError
   /\ @resolve_id wire (ID (This pkt)) = Some sample_id)
  /\ @read_record plain_codec w
       (db (@handleAnnounceV2 plain_codec go_net wire w sample_source "" st).2) sample_id
     = mkAddressList [mkAddress "tcp://203.0.113.5:4000" 1000] [].
Proof.
  intros pkt wire w st.
  assert (@Announce_UnmarshalXDR wire "" = (pkt, XdrOk)) as Hd by reflexivity.
  assert (XdrOk ≠ XdrError) as Hs by discriminate.
  assert (@resolve_id wire (ID (This pkt)) = Some sample_id) as Hid by reflexivity.
  split; [done |].
  destruct (@C7_announce_host_fill plain_codec go_net wire w sample_source "" st
              pkt XdrOk sample_id Hd Hs Hid) as (-> & _).
  vm_compute. reflexivity.
Defined.



(** C3, as stated, fails: with the default burst of 10, eleven packets at
    once from a new source all pass; the eleventh is not ignored. *)
Lemma C3_counterexample :
  let st : @server plain_codec := @start_server plain_codec default_config ∅ in
  let run := @limit_seq plain_codec go_net default_config
               (replicate 11 (calm 0)) sample_source st in
  verdicts run = Some (replicate 11 false)
  /\ (verdicts run ≫= (fun bs => bs !! 10%nat)) ≠ Some true.
Proof. vm_compute. split; [reflexivity | discriminate]. Qed.

(** C3, amended.  A new source may send [burst + 1] packets at once: the
    first makes the bucket and takes nothing, the next [burst] take a token
    each, and all of them pass; the packet after those, the
    [(burst + 2)]-th, is the first to be ignored, and it is counted in
    [limited].  A source whose packets are at least one refill interval
    apart has every packet passed. *)
Theorem C3_burst_then_limit {codec : XDRCodec} {net : NetURL}
    (cfg : config) (addr : UDPAddr) (st : server) (w1 : io) (I : Z) :
  lru_find (IP_String (IP addr)) (ll (limiter st)) = None ->
  0 <= MaxEntries (limiter st) ->
  limit_interval cfg = Some I -> 0 < I ->
  0 < limitBurst cfg < 2 ^ 62 ->
  0 <= io_time w1 -> io_time w1 + I < 2 ^ 62 ->
  (forall ws,
      Forall (fun w => io_time w1 <= io_time w < io_time w1 + I) ws ->
      Z.of_nat (length ws) <= limitBurst cfg ->
      exists st',
        limit_seq cfg (w1 :: ws) addr st = Running (replicate (S (length ws)) false, st')
        /\ limited st' = limited st)
  /\ (forall ws w,
        Forall (fun w => io_time w1 <= io_time w < io_time w1 + I) (ws ++ [w]) ->
        Z.of_nat (length ws) = limitBurst cfg ->
        exists st',
          limit_seq cfg (w1 :: ws ++ [w]) addr st
          = Running (replicate (S (length ws)) false ++ [true], st')
          /\ limited st' = incr (limited st))
  /\ (forall ws,
        paced I (io_time w1) (map io_time ws) ->
        Forall (fun w => io_time w < 2 ^ 62) ws ->
        exists st',
          limit_seq cfg (w1 :: ws) addr st = Running (replicate (S (length ws)) false, st')
          /\ limited st' = limited st).
Proof.
  intros Hf Hm HI Hpos HB Ht1 Hend.
  pose proof (limit_miss cfg w1 addr st I Hf HI Hpos ltac:(lia)) as Hfirst.
  destruct (lru_Add_head (IP_String (IP addr))
              (mkBucket (io_time w1) (limitBurst cfg) 1 I (limitBurst cfg) 0)
              (limiter st) Hm Hf) as [rest Hrest].
  set (st1 := set_limiter (lru_Add (IP_String (IP addr))
                (mkBucket (io_time w1) (limitBurst cfg) 1 I (limitBurst cfg) 0)
                (limiter st)) st) in *.
  assert (ll (limiter st1)
          = (IP_String (IP addr),
             mkBucket (io_time w1) (limitBurst cfg) 1 I (limitBurst cfg) 0) :: rest) as Hl1.
  { subst st1. simpl. by rewrite Hrest. }
  assert (limited st1 = limited st) as Hlim1 by done.
  split; [| split].
  - intros ws Hws Hlen. simpl limit_seq. rewrite Hfirst.
    destruct (limit_seq_burst cfg addr (io_time w1) I ws st1 (limitBurst cfg) rest
                Ht1 Hend Hpos ltac:(lia) Hws Hl1 ltac:(lia))
      as (st' & -> & _ & _ & Hlim).
    exists st'. split; [done | congruence].
  - intros ws w Hws Hlen. simpl limit_seq. rewrite Hfirst.
    apply Forall_app in Hws as [Hws Hw]. rewrite Forall_singleton in Hw.
    destruct (limit_seq_burst cfg addr (io_time w1) I ws st1 (limitBurst cfg) rest
                Ht1 Hend Hpos ltac:(lia) Hws Hl1 ltac:(lia))
      as (st2 & Hrun & Hl2 & _ & Hlim2).
    rewrite Hlen, Z.sub_diag in Hl2.
    destruct (limit_empty cfg w addr (io_time w1) I st2 rest Ht1 Hend Hpos
                ltac:(lia) Hw Hl2) as (st3 & Hlast & Hlim3).
    assert (forall l (s : server) bs s',
               limit_seq cfg l addr s = Running (bs, s') ->
               forall s'', limit cfg w addr s' = Running (true, s'') ->
               limit_seq cfg (l ++ [w]) addr s = Running (bs ++ [true], s'')) as Hsnoc.
    { induction l as [| x l IHl]; intros s bs s' Hr s'' Hw'.
      - simpl in Hr. injection Hr as <- <-. simpl. by rewrite Hw'.
      - simpl in Hr |- *. destruct (limit cfg x addr s) as [[b sx] |]; [| done].
        destruct (limit_seq cfg l addr sx) as [[bs' sy] |] eqn:Hl; [| done].
        injection Hr as <- <-.
        by rewrite (IHl sx bs' sy Hl s'' Hw'). }
    rewrite (Hsnoc ws st1 _ st2 Hrun st3 Hlast).
    exists st3. split; [done | congruence].
  - intros ws Hp Hws. simpl limit_seq. rewrite Hfirst.
    destruct (limit_seq_paced cfg addr (io_time w1) I (io_time w1) ws st1
                (mkBucket (io_time w1) (limitBurst cfg) 1 I (limitBurst cfg) 0) rest
                ltac:(lia) Hpos HB Hp Hws Hl1) as (st' & -> & Hlim).
    { unfold bucket_ok. simpl. rewrite Z.sub_diag, Z.div_0_l by lia. repeat split; lia. }
    exists st'. split; [done | congruence].
Qed.

Lemma C3_burst_then_limit_witness :
  let st : @server plain_codec := @start_server plain_codec default_config ∅ in
  (lru_find (@IP_String go_net (IP sample_source)) (ll (limiter st)) = None
   /\ 0 <= MaxEntries (limiter st)
   /\ limit_interval default_config = Some 10000000000
   /\ 0 < 10000000000
   /\ 0 < limitBurst default_config < 2 ^ 62
   /\ 0 <= io_time (calm 0) /\ io_time (calm 0) + 10000000000 < 2 ^ 62)
  /\ exists st',
       @limit_seq plain_codec go_net default_config
         (calm 0 :: replicate 10 (calm 0) ++ [calm 0]) sample_source st
       = Running (replicate 11 false ++ [true], st')
       /\ limited st' = incr (limited st).
Proof.
  intros st.
  assert (lru_find (@IP_String go_net (IP sample_source)) (ll (limiter st)) = None) as Hf
    by reflexivity.
  assert (0 <= MaxEntries (limiter st)) as Hm by (vm_compute; discriminate).
  assert (limit_interval default_config = Some 10000000000) as HI by reflexivity.
  assert (0 < 10000000000) as Hpos by reflexivity.
  assert (0 < limitBurst default_config < 2 ^ 62) as HB by (split; reflexivity).
  assert (0 <= io_time (calm 0)) as Ht1 by (vm_compute; discriminate).
  assert (io_time (calm 0) + 10000000000 < 2 ^ 62) as Hend by reflexivity.
  split; [done |].
  destruct (@C3_burst_then_limit plain_codec go_net default_config sample_source st
              (calm 0) 10000000000 Hf Hm HI Hpos HB Ht1 Hend) as (_ & Hlast & _).
  apply (Hlast (replicate 10 (calm 0)) (calm 0)).
  - repeat constructor; vm_compute; discriminate.
  - reflexivity.
Defined.

(** ** The receive loop *)

Section ServeFacts.
Context {codec : XDRCodec} {net : NetURL} {wire : Wire}.
Implicit Types (st : server) (w : io) (cfg : config) (rc : datagram).





End ServeFacts.





(** * Further properties of the registry *)

Section RegistryMore.
Context {codec : XDRCodec} {net : NetURL}.
Implicit Types (cur todo addrs : list address) (newAddr : address) (w : io).

(** What the inner loop can do to the list: nothing, or one write of the
    new address over an entry with the same port-normalised form. *)
Lemma merge_scan_cases newAddr (i : nat) todo cur (s : string) :
  normalize (a_address newAddr) = Some s ->
  (merge_scan newAddr i todo cur = None
   /\ forall e, e ∈ todo -> normalize (a_address e) ≠ Some s)
  \/ (exists j ex, todo !! j = Some ex /\ normalize (a_address ex) = Some s
                   /\ merge_scan newAddr i todo cur = Some (<[(i + j)%nat:=newAddr]> cur)).
Proof.
  intros Hn. revert i. induction todo as [| e todo IH]; intros i.
  - left. split; [done |]. intros e He. by apply elem_of_nil in He.
  - rewrite (merge_scan_cons _ _ _ _ _ _ Hn). case_decide as He.
    + right. exists 0%nat, e. by rewrite Nat.add_0_r.
    + destruct (IH (S i)) as [[Hnone Hno] | (j & ex & Hj & Hex & Hs)].
      * left. split; [done |]. intros e' He'.
        apply elem_of_cons in He' as [-> | He']; [done | by apply Hno].
      * right. exists (S j), ex. split; [done |]. split; [done |].
        rewrite Hs. do 2 f_equal. lia.
Qed.

Lemma merge_one_cases cur newAddr (s : string) :
  normalize (a_address newAddr) = Some s ->
  (merge_one cur newAddr = cur ++ [newAddr]
   /\ forall e, e ∈ cur -> normalize (a_address e) ≠ Some s)
  \/ (exists j ex, cur !! j = Some ex /\ normalize (a_address ex) = Some s
                   /\ merge_one cur newAddr = <[j:=newAddr]> cur).
Proof.
  intros Hn. unfold merge_one.
  destruct (merge_scan_cases newAddr 0 cur cur s Hn) as [[-> Hno] | (j & ex & Hj & Hex & ->)].
  - by left.
  - right. by exists j, ex.
Qed.

(** Whatever the address, one turn appends it, writes it over one entry, or
    leaves the list alone. *)
Lemma merge_one_shape cur newAddr :
  merge_one cur newAddr = cur ++ [newAddr]
  \/ merge_one cur newAddr = cur
  \/ exists j, (j < length cur)%nat /\ merge_one cur newAddr = <[j:=newAddr]> cur.
Proof.
  destruct (normalize (a_address newAddr)) as [s |] eqn:Hn.
  - destruct (merge_one_cases cur newAddr s Hn) as [[-> _] | (j & ex & Hj & _ & ->)].
    + by left.
    + right. right. exists j. split; [by eapply lookup_lt_Some | done].
  - destruct cur as [| e cur]; [by left |].
    right. left. by apply merge_one_skip.
Qed.

Lemma merge_one_length cur newAddr :
  (length cur <= length (merge_one cur newAddr) <= S (length cur))%nat.
Proof.
  destruct (merge_one_shape cur newAddr) as [-> | [-> | (j & _ & ->)]].
  - rewrite length_app. simpl. lia.
  - lia.
  - rewrite length_insert. lia.
Qed.

Lemma merge_one_elem cur newAddr (a : address) :
  a ∈ merge_one cur newAddr -> a ∈ cur \/ a = newAddr.
Proof.
  destruct (merge_one_shape cur newAddr) as [-> | [-> | (j & _ & ->)]]; intros Hin.
  - apply elem_of_app in Hin as [Hin | Hin]; [by left |].
    right. by apply list_elem_of_singleton in Hin.
  - by left.
  - apply list_elem_of_lookup in Hin as [k Hk].
    apply list_lookup_insert_Some in Hk as [(_ & <- & _) | (_ & Hk)]; [by right |].
    left. by eapply list_elem_of_lookup_2.
Qed.

End RegistryMore.

(** X1.  Reading a device back after [update]: [get] returns the stored
    addresses merged with the incoming ones, and the relays are exactly the
    incoming relays, whatever relays were stored before (storage and encoder
    working). *)
Theorem X1_update_then_get {codec : XDRCodec} {net : NetURL}
    (w : io) (db : gmap string Encoded) (id : string)
    (addrs : list address) (rs : list discover_Relay) :
  (forall l, is_Some (MarshalXDR l)) ->
  io_get_err w id = false -> io_write_err w id = false ->
  get w (update w db id addrs rs) id
  = (merge (get w db id).1 addrs, map to_relay rs).
Proof.
  intros Hm Hg Hw. unfold get.
  by rewrite (update_read w db id addrs rs Hm Hg Hw).
Qed.

Lemma X1_update_then_get_witness :
  let w := calm 0 in
  let db0 : gmap string addressList :=
    {[ sample_id := mkAddressList [mkAddress "tcp://1.2.3.4:9000" 1]
                                  [mkRelay "relay://9.9.9.9:443" 7] ]} in
  ((forall l, is_Some (@MarshalXDR plain_codec l))
   /\ io_get_err w sample_id = false /\ io_write_err w sample_id = false)
  /\ @get plain_codec w
       (@update plain_codec go_net w db0 sample_id
          [mkAddress "tcp://5.6.7.8:9000" 2] [mkDRelay "relay://8.8.8.8:443" 3])
       sample_id
     = ([mkAddress "tcp://1.2.3.4:9000" 1; mkAddress "tcp://5.6.7.8:9000" 2],
        [mkRelay "relay://8.8.8.8:443" 3]).
Proof.
  intros w db0.
  assert (forall l, is_Some (@MarshalXDR plain_codec l)) as Hm by (intros l; by eexists).
  assert (io_get_err w sample_id = false) as Hg by reflexivity.
  assert (io_write_err w sample_id = false) as Hw by reflexivity.
  split; [done |].
  rewrite (@X1_update_then_get plain_codec go_net w db0 sample_id _ _ Hm Hg Hw).
  vm_compute. reflexivity.
Defined.

(** X2.  [update] writes under its own key only: the record of any other
    device is left as it was, and no device loses its record, whether or
    not storage and encoder fail. *)
Theorem X2_update_frame {codec : XDRCodec} {net : NetURL}
    (w : io) (db : gmap string Encoded) (id id' : string)
    (addrs : list address) (rs : list discover_Relay) :
  (id' ≠ id -> update w db id addrs rs !! id' = db !! id')
  /\ (is_Some (db !! id') -> is_Some (update w db id addrs rs !! id')).
Proof.
  assert (id' ≠ id -> update w db id addrs rs !! id' = db !! id') as Hne.
  { intros Hne. unfold update, db_Put.
    destruct (MarshalXDR _) as [data |]; [| done].
    destruct (io_write_err w id); [done |]. by rewrite lookup_insert_ne. }
  split; [done |].
  intros Hs. destruct (decide (id' = id)) as [-> | Hd]; [| by rewrite Hne].
  unfold update, db_Put.
  destruct (MarshalXDR _) as [data |]; [| done].
  destruct (io_write_err w id); [done |]. rewrite lookup_insert_eq. by eexists.
Qed.

(** X3.  Merging never shortens the stored list and adds at most one entry
    per incoming address; every entry of the result is a stored entry or an
    incoming one. *)
Theorem X3_merge_bounds {net : NetURL} (cur addrs : list address) :
  (length cur <= length (merge cur addrs) <= length cur + length addrs)%nat
  /\ forall a, a ∈ merge cur addrs -> a ∈ cur \/ a ∈ addrs.
Proof.
  unfold merge. revert cur. induction addrs as [| n addrs IH]; intros cur.
  - simpl. split; [lia |]. intros a Ha. by left.
  - simpl. destruct (IH (merge_one cur n)) as [Hlen Hin].
    pose proof (merge_one_length cur n) as Hone. split; [lia |].
    intros a Ha. destruct (Hin a Ha) as [Hc | Hc].
    + destruct (merge_one_elem cur n a Hc) as [? | ->]; [by left |].
      right. by left.
    + right. by right.
Qed.

(** X4.  No two entries for one endpoint: when the stored addresses all
    have a port-normalised form and these forms are pairwise different,
    merging addresses that have one keeps both properties. *)
Theorem X4_merge_keeps_endpoints_distinct {net : NetURL} (cur addrs : list address) :
  Forall (fun a => is_Some (normalize (a_address a))) cur ->
  NoDup (map (fun a => normalize (a_address a)) cur) ->
  Forall (fun a => is_Some (normalize (a_address a))) addrs ->
  Forall (fun a => is_Some (normalize (a_address a))) (merge cur addrs)
  /\ NoDup (map (fun a => normalize (a_address a)) (merge cur addrs)).
Proof.
  intros Hc Hnd Ha. unfold merge. revert cur Hc Hnd.
  induction Ha as [| n addrs [s Hn] Ha IH]; intros cur Hc Hnd; [done |].
  simpl. apply IH.
  - apply Forall_forall. intros a Hin.
    destruct (merge_one_elem cur n a Hin) as [Hin' | ->]; [| by eexists].
    by eapply (proj1 (Forall_forall _ _) Hc).
  - destruct (merge_one_cases cur n s Hn) as [[-> Hno] | (j & ex & Hj & Hex & ->)].
    + rewrite map_app. simpl. apply NoDup_app. split; [done |]. split.
      * intros o Ho Ho'. apply list_elem_of_singleton in Ho' as ->.
        apply list_elem_of_fmap in Ho as (e & He & Hin). rewrite Hn in He.
        by apply (Hno e Hin).
      * rewrite Hn. apply NoDup_singleton.
    + assert (map (fun a => normalize (a_address a)) (<[j:=n]> cur)
              = map (fun a => normalize (a_address a)) cur) as ->; [| done].
      change (map ?f ?l) with (f <$> l). rewrite list_fmap_insert.
      apply list_insert_id. rewrite list_lookup_fmap, Hj. simpl. congruence.
Qed.

Lemma X4_merge_keeps_endpoints_distinct_witness :
  let cur := [mkAddress "tcp://1.2.3.4:9000" 1; mkAddress "tcp://5.6.7.8:9000" 1] in
  let addrs := [mkAddress "tcp://1.2.3.4:9001" 2; mkAddress "tcp://7.7.7.7:9000" 2] in
  (Forall (fun a => is_Some (@normalize go_net (a_address a))) cur
   /\ NoDup (map (fun a => @normalize go_net (a_address a)) cur)
   /\ Forall (fun a => is_Some (@normalize go_net (a_address a))) addrs)
  /\ Forall (fun a => is_Some (@normalize go_net (a_address a))) (@merge go_net cur addrs)
  /\ NoDup (map (fun a => @normalize go_net (a_address a)) (@merge go_net cur addrs)).
Proof.
  intros cur addrs.
  assert (Forall (fun a => is_Some (@normalize go_net (a_address a))) cur) as Hc
    by (repeat constructor; by eexists).
  assert (NoDup (map (fun a => @normalize go_net (a_address a)) cur)) as Hnd
    by (vm_compute; apply NoDup_cons; split;
        [intros H; apply list_elem_of_singleton in H; discriminate
        | apply NoDup_singleton]).
  assert (Forall (fun a => is_Some (@normalize go_net (a_address a))) addrs) as Ha
    by (repeat constructor; by eexists).
  split; [done |].
  exact (@X4_merge_keeps_endpoints_distinct go_net cur addrs Hc Hnd Ha).
Defined.

(** X5.  Every endpoint of an update is stored: for each incoming address
    (all of them with a port-normalised form) the merged list holds an
    incoming address with the same port-normalised form. *)
Theorem X5_merge_stores_every_endpoint {net : NetURL} (cur addrs : list address) :
  Forall (fun a => is_Some (normalize (a_address a))) addrs ->
  forall a, a ∈ addrs ->
    exists a', a' ∈ addrs /\ a' ∈ merge cur addrs
               /\ normalize (a_address a') = normalize (a_address a).
Proof.
  intros Ha. unfold merge.
  assert (forall done cur,
    Forall (fun a => is_Some (normalize (a_address a))) addrs ->
    (forall a, a ∈ done ->
       exists a', a' ∈ done ++ addrs /\ a' ∈ cur
                  /\ normalize (a_address a') = normalize (a_address a)) ->
    forall a, a ∈ done ++ addrs ->
      exists a', a' ∈ done ++ addrs /\ a' ∈ foldl merge_one cur addrs
                 /\ normalize (a_address a') = normalize (a_address a)) as Hgen.
  { clear cur Ha. induction addrs as [| n addrs IH]; intros done cur Ha Hinv a Hin.
    - rewrite app_nil_r in *. simpl. by apply Hinv.
    - apply Forall_cons in Ha as [[s Hn] Ha]. simpl.
      replace (done ++ n :: addrs) with ((done ++ [n]) ++ addrs) in *
        by (by rewrite <- app_assoc).
      apply IH; [done | | done].
      intros b Hb.
      assert (n ∈ merge_one cur n) as Hnin.
      { destruct (merge_one_cases cur n s Hn) as [[-> _] | (j & ex & Hj & _ & ->)].
        - apply elem_of_app. right. by apply list_elem_of_singleton.
        - apply list_elem_of_lookup. exists j. apply list_lookup_insert_eq.
          by eapply lookup_lt_Some. }
      apply elem_of_app in Hb as [Hb | Hb].
      + destruct (Hinv b Hb) as (b' & Hb1 & Hb2 & Hb3).
        destruct (merge_one_cases cur n s Hn) as [[He _] | (j & ex & Hj & Hex & He)].
        * exists b'. split; [done | split; [| done]].
          rewrite He. apply elem_of_app. by left.
        * apply list_elem_of_lookup in Hb2 as [k Hk].
          destruct (decide (k = j)) as [-> | Hkj].
          { exists n. split; [| split; [done |]].
            - apply elem_of_app. left. apply elem_of_app. right.
              by apply list_elem_of_singleton.
            - rewrite Hj in Hk. injection Hk as ->. congruence. }
          exists b'. split; [done | split; [| done]].
          rewrite He. apply list_elem_of_lookup. exists k.
          by rewrite list_lookup_insert_ne.
      + apply list_elem_of_singleton in Hb as ->.
        exists n. split; [| split; [done | done]].
        apply elem_of_app. left. apply elem_of_app. right.
        by apply list_elem_of_singleton. }
  intros a Hin.
  destruct (Hgen [] cur Ha) with (a := a) as (a' & H1 & H2 & H3); [| done |].
  - intros b Hb. by apply elem_of_nil in Hb.
  - by exists a'.
Qed.

Lemma X5_merge_stores_every_endpoint_witness :
  let cur := [mkAddress "tcp://1.2.3.4:9000" 1] in
  let addrs := [mkAddress "tcp://1.2.3.4:9001" 2; mkAddress "tcp://7.7.7.7:9000" 2] in
  Forall (fun a => is_Some (@normalize go_net (a_address a))) addrs
  /\ exists a', a' ∈ addrs /\ a' ∈ @merge go_net cur addrs
                /\ @normalize go_net (a_address a')
                   = @normalize go_net "tcp://1.2.3.4:9001".
Proof.
  intros cur addrs.
  assert (Forall (fun a => is_Some (@normalize go_net (a_address a))) addrs) as Ha
    by (repeat constructor; by eexists).
  split; [done |].
  apply (@X5_merge_stores_every_endpoint go_net cur addrs Ha
           (mkAddress "tcp://1.2.3.4:9001" 2)).
  by left.
Defined.

(** * Further properties of the sweep *)

Lemma filter_length_eq {A : Type} (f : A -> bool) (l : list A) :
  length (List.filter f l) = length l -> List.filter f l = l.
Proof.
  induction l as [| x l IH]; [done |]. simpl.
  pose proof (List.filter_length_le f l) as Hle.
  destruct (f x); simpl; intros Hl; [f_equal; apply IH; lia | lia].
Qed.

Lemma filter_all {A : Type} (f : A -> bool) (l : list A) :
  Forall (fun x => f x = true) l -> List.filter f l = l.
Proof.
  induction 1 as [| x l Hx Hl IH]; [done |]. simpl. by rewrite Hx, IH.
Qed.

(** Moving the last address over an expired one keeps the unexpired
    addresses, up to their order. *)
Lemma swap_remove_unexpired (nowSecs : Z) (l : list address) (x y : address) (i : nat) :
  (l ++ [y]) !! i = Some x -> expired nowSecs x = true ->
  List.filter (unexpired nowSecs) (<[i:=y]> l)
  ≡ₚ List.filter (unexpired nowSecs) (l ++ [y]).
Proof.
  intros Hi Hx. rewrite List.filter_app.
  assert (unexpired nowSecs x = false) as Hux by (unfold unexpired; by rewrite Hx).
  destruct (decide (i < length l)%nat) as [Hlt | Hge].
  - rewrite lookup_app_l in Hi by done.
    rewrite <- (take_drop_middle l i x Hi) at 2.
    rewrite insert_take_drop by done.
    rewrite !List.filter_app. simpl. rewrite Hux.
    destruct (unexpired nowSecs y).
    + rewrite <- app_assoc. apply Permutation_app_head.
      apply Permutation_cons_append.
    + by rewrite app_nil_r.
  - apply lookup_lt_Some in Hi as Hlen. rewrite length_app in Hlen. simpl in Hlen.
    assert (i = length l) as -> by lia.
    rewrite lookup_app_r, Nat.sub_diag in Hi by lia. simpl in Hi. injection Hi as ->.
    rewrite list_insert_ge by lia. simpl. rewrite Hux.
    by rewrite app_nil_r.
Qed.

Lemma prune_from_unexpired (fuel i : nat) (nowSecs : Z) (l : list address) :
  List.filter (unexpired nowSecs) (prune_from fuel i nowSecs l)
  ≡ₚ List.filter (unexpired nowSecs) l.
Proof.
  revert i l. induction fuel as [| fuel IH]; intros i l; [done |].
  simpl. destruct (l !! i) as [x |] eqn:Hi; [| done].
  destruct (expired nowSecs x) eqn:Hx; [| by apply IH].
  destruct (last l) as [y |] eqn:Hl; [| done].
  apply last_Some in Hl as [l' ->].
  rewrite swap_remove_snoc, IH. by eapply swap_remove_unexpired.
Qed.

Lemma prune_from_all_unexpired (fuel i : nat) (nowSecs : Z) (l : list address) :
  Forall (fun a => expired nowSecs a = false) l -> prune_from fuel i nowSecs l = l.
Proof.
  intros Hl. revert i. induction fuel as [| fuel IH]; intros i; [done |].
  simpl. destruct (l !! i) as [x |] eqn:Hi; [| done].
  assert (expired nowSecs x = false) as ->; [| apply IH].
  eapply (proj1 (Forall_forall _ _) Hl). by eapply list_elem_of_lookup_2.
Qed.

Lemma prune_from_shrinks (fuel i j : nat) (nowSecs : Z) (l : list address) (x : address) :
  (length l - i <= fuel)%nat -> (i <= j)%nat ->
  l !! j = Some x -> expired nowSecs x = true ->
  (length (prune_from fuel i nowSecs l) < length l)%nat.
Proof.
  revert i l. induction fuel as [| fuel IH]; intros i l Hf Hij Hj Hx.
  - apply lookup_lt_Some in Hj. lia.
  - simpl. destruct (l !! i) as [a |] eqn:Hi.
    2: { apply lookup_ge_None in Hi. apply lookup_lt_Some in Hj. lia. }
    destruct (expired nowSecs a) eqn:Ha.
    + destruct (last l) as [y |] eqn:Hl.
      2: { apply last_None in Hl. subst l. done. }
      apply last_Some in Hl as [l' ->]. rewrite swap_remove_snoc.
      pose proof (prune_from_length fuel (S i) nowSecs (<[i:=y]> l')) as Hle.
      rewrite length_insert in Hle. rewrite length_app. simpl. lia.
    + assert (i ≠ j) by (intros ->; congruence).
      apply IH; [lia | lia | done | done].
Qed.

Lemma prune_shrinks (nowSecs : Z) (addrs : list address) (a : address) :
  a ∈ addrs -> expired nowSecs a = true ->
  (length (prune nowSecs addrs) < length addrs)%nat.
Proof.
  intros Hin Ha. apply list_elem_of_lookup in Hin as [j Hj].
  by apply (prune_from_shrinks _ 0 j nowSecs addrs a); [lia | lia | |].
Qed.

(** X6.  The pruning loop of [clean] loses and repeats no address that has
    not expired: the unexpired addresses after the loop are those before
    it, in some order. *)
Theorem X6_prune_keeps_unexpired (nowSecs : Z) (addrs : list address) :
  List.filter (unexpired nowSecs) (prune nowSecs addrs)
  ≡ₚ List.filter (unexpired nowSecs) addrs.
Proof. apply prune_from_unexpired. Qed.

(** X7.  The pruning loop leaves the list as it is exactly when no address
    has expired; when one has, the list gets strictly shorter. *)
Theorem X7_prune_changes_iff_expired (nowSecs : Z) (addrs : list address) :
  (prune nowSecs addrs = addrs <-> Forall (fun a => expired nowSecs a = false) addrs)
  /\ (forall a, a ∈ addrs -> expired nowSecs a = true ->
        (length (prune nowSecs addrs) < length addrs)%nat).
Proof.
  split; [| apply prune_shrinks]. split.
  - intros Heq. apply Forall_forall. intros a Hin.
    destruct (expired nowSecs a) eqn:Ha; [| done].
    pose proof (prune_shrinks nowSecs addrs a Hin Ha) as Hlt. rewrite Heq in Hlt. lia.
  - apply prune_from_all_unexpired.
Qed.

(** X8.  Repeating the pruning loop at one reading of the clock gets rid of
    every expired address: after as many rounds as the list is long, what
    is left is the unexpired addresses of the list, in some order. *)
Theorem X8_prune_rounds_converge (nowSecs : Z) (addrs : list address) :
  Nat.iter (length addrs) (prune nowSecs) addrs
  ≡ₚ List.filter (unexpired nowSecs) addrs.
Proof.
  assert (forall n l,
            (length l - length (List.filter (unexpired nowSecs) l) <= n)%nat ->
            Nat.iter n (prune nowSecs) l ≡ₚ List.filter (unexpired nowSecs) l) as Hgen.
  { induction n as [| n IH]; intros l Hn.
    - simpl. pose proof (List.filter_length_le (unexpired nowSecs) l).
      by rewrite filter_length_eq by lia.
    - rewrite Nat.iter_succ_r.
      destruct (decide (Forall (fun a => expired nowSecs a = false) l)) as [Hall | Hsome].
      + unfold prune at 2. rewrite (prune_from_all_unexpired _ _ _ _ Hall).
        apply IH. rewrite filter_all; [lia |].
        eapply Forall_impl; [exact Hall |]. intros a Ha. unfold unexpired. by rewrite Ha.
      + apply not_Forall_Exists in Hsome; [| apply _].
        apply Exists_exists in Hsome as (a & Hin & Ha).
        apply not_false_is_true in Ha.
        pose proof (prune_shrinks nowSecs l a Hin Ha) as Hlt.
        pose proof (Permutation_length (prune_from_unexpired (length l) 0 nowSecs l)) as Hlen.
        fold (prune nowSecs l) in Hlen.
        rewrite IH by lia. apply prune_from_unexpired. }
  apply Hgen. lia.
Qed.

Section SweepMore.
Context {codec : XDRCodec}.
Implicit Types (st : sweep) (db : gmap string Encoded) (w : io).

(** A record with addresses none of which has expired is counted as kept
    and not written. *)
Lemma clean_record_untouched w nowSecs st (key : string) (val : Encoded) :
  addresses (UnmarshalXDR val) ≠ [] ->
  Forall (fun a => expired nowSecs a = false) (addresses (UnmarshalXDR val)) ->
  clean_record w nowSecs st key val
  = mkSweep (sw_db st) (add64 (sw_kept st) 1) (sw_deleted st).
Proof.
  intros Hne Hall. unfold clean_record, prune.
  rewrite (prune_from_all_unexpired _ _ _ _ Hall).
  destruct (addresses (UnmarshalXDR val)) as [| a l] eqn:Ha; [done |].
  simpl length. by rewrite Nat.eqb_refl.
Qed.

Lemma clean_fold_untouched w nowSecs (l : list (string * Encoded)) st :
  Forall (fun kv => addresses (UnmarshalXDR kv.2) ≠ []
                    /\ Forall (fun a => expired nowSecs a = false)
                              (addresses (UnmarshalXDR kv.2))) l ->
  0 <= sw_kept st -> sw_kept st + Z.of_nat (length l) < 2 ^ 63 ->
  foldl (fun st kv => clean_record w nowSecs st kv.1 kv.2) st l
  = mkSweep (sw_db st) (sw_kept st + Z.of_nat (length l)) (sw_deleted st).
Proof.
  intros Hl. revert st. induction Hl as [| [k v] l [Hne Hall] Hl IH]; intros st Hk Hb.
  - simpl. rewrite Z.add_0_r. by destruct st.
  - simpl foldl. simpl length in Hb. simpl in Hne, Hall.
    rewrite (clean_record_untouched w nowSecs st k v Hne Hall).
    assert (add64 (sw_kept st) 1 = sw_kept st + 1) as Hadd
      by (apply wrap64_small; unfold int64_range; lia).
    rewrite IH; simpl; rewrite Hadd; [| lia | lia].
    f_equal. simpl length. lia.
Qed.

(** The turn for a key leaves a record made of what was stored. *)
Lemma clean_record_subset w nowSecs st (key : string) (val v' : Encoded) :
  sw_db st !! key = Some val ->
  sw_db (clean_record w nowSecs st key val) !! key = Some v' ->
  relays (UnmarshalXDR v') = relays (UnmarshalXDR val)
  /\ forall a, a ∈ addresses (UnmarshalXDR v') -> a ∈ addresses (UnmarshalXDR val).
Proof.
  intros Hk. unfold clean_record, db_Delete, db_Put.
  destruct (_ =? 0)%nat; simpl.
  { destruct (io_write_err w key); [| by rewrite lookup_delete_eq].
    rewrite Hk. by intros [= <-]. }
  destruct (negb _); simpl; [| rewrite Hk; by intros [= <-]].
  destruct (MarshalXDR _) as [data |] eqn:Hm; simpl; [| rewrite Hk; by intros [= <-]].
  destruct (io_write_err w key); [rewrite Hk; by intros [= <-] |].
  rewrite lookup_insert_eq. intros [= <-].
  rewrite (UnmarshalXDR_MarshalXDR _ _ Hm). simpl. split; [done |].
  intros a. apply prune_from_subset.
Qed.

End SweepMore.

(** X9.  A pass over a registry in which every record has at least one
    address and no address has expired changes nothing: the database is the
    same after the pass, every record is counted as kept and none as
    deleted. *)
Theorem X9_sweep_of_fresh_registry {codec : XDRCodec}
    (w : io) (nowSecs : Z) (db : gmap string Encoded) :
  (forall k v, db !! k = Some v ->
     addresses (UnmarshalXDR v) ≠ []
     /\ Forall (fun a => expired nowSecs a = false) (addresses (UnmarshalXDR v))) ->
  Z.of_nat (size db) < 2 ^ 63 ->
  clean_pass w nowSecs db = mkSweep db (Z.of_nat (size db)) 0.
Proof.
  intros Hgood Hsz. unfold clean_pass.
  rewrite clean_fold_untouched; simpl.
  - by rewrite length_map_to_list.
  - apply Forall_forall. intros [k v] Hin. apply elem_of_map_to_list in Hin.
    by apply (Hgood k v).
  - lia.
  - rewrite length_map_to_list. lia.
Qed.

Lemma X9_sweep_of_fresh_registry_witness :
  let db0 : gmap string addressList :=
    {[ sample_id := mkAddressList [mkAddress "tcp://1.2.3.4:9000" 7000] [] ]} in
  ((forall k v, db0 !! k = Some v ->
      addresses (@UnmarshalXDR plain_codec v) ≠ []
      /\ Forall (fun a => expired 7200 a = false) (addresses (@UnmarshalXDR plain_codec v)))
   /\ Z.of_nat (size db0) < 2 ^ 63)
  /\ @clean_pass plain_codec (calm 0) 7200 db0
     = @mkSweep plain_codec db0 (Z.of_nat (size db0)) 0.
Proof.
  intros db0.
  assert (forall k v, db0 !! k = Some v ->
            addresses (@UnmarshalXDR plain_codec v) ≠ []
            /\ Forall (fun a => expired 7200 a = false)
                      (addresses (@UnmarshalXDR plain_codec v))) as Hgood.
  { intros k v Hk. apply lookup_singleton_Some in Hk as [_ <-].
    split; [discriminate |].
    apply Forall_cons. split; [vm_compute; reflexivity | by apply Forall_nil]. }
  assert (Z.of_nat (size db0) < 2 ^ 63) as Hsz by (vm_compute; reflexivity).
  split; [split; [exact Hgood | exact Hsz] |].
  exact (@X9_sweep_of_fresh_registry plain_codec (calm 0) 7200 db0 Hgood Hsz).
Defined.

(** X10.  A pass makes nothing up: a record stored after the pass is
    stored under a key that had one before, with the same relays, and every
    address of it was an address of the record before; and it takes away
    nothing that a query would still return, an unexpired address of a
    record being still in the record after the pass. *)
Theorem X10_sweep_frame {codec : XDRCodec}
    (w : io) (nowSecs : Z) (db : gmap string Encoded) (k : string) :
  (forall v', sw_db (clean_pass w nowSecs db) !! k = Some v' ->
     exists v, db !! k = Some v
       /\ relays (UnmarshalXDR v') = relays (UnmarshalXDR v)
       /\ forall a, a ∈ addresses (UnmarshalXDR v') -> a ∈ addresses (UnmarshalXDR v))
  /\ (forall v a, db !! k = Some v -> a ∈ addresses (UnmarshalXDR v) ->
        expired nowSecs a = false ->
        exists v', sw_db (clean_pass w nowSecs db) !! k = Some v'
                   /\ a ∈ addresses (UnmarshalXDR v')).
Proof.
  split.
  - intros v' Hs. destruct (db !! k) as [v |] eqn:Hk.
    2: { by rewrite clean_pass_lookup_None in Hs. }
    exists v. split; [done |].
    rewrite (clean_pass_lookup _ _ _ _ _ Hk) in Hs.
    by apply (clean_record_subset w nowSecs (mkSweep db 0 0) k v v').
  - intros v a Hk Hin Ha. by eapply clean_pass_keeps_fresh.
Qed.

(** * Further properties of the handlers *)

Section HandlersMore.
Context {codec : XDRCodec} {net : NetURL} {wire : Wire}.
Implicit Types (st : server) (w : io) (ip : list Z).

Lemma announce_addrs_stamped ip (now : Z) (l : list string) (acc : list address) (a : address) :
  a ∈ announce_addrs ip now l acc -> a ∈ acc \/ a_seen a = now.
Proof.
  revert acc. induction l as [| s l IH]; intros acc Hin; [by left |].
  simpl in Hin. destruct (url_Parse s) as [u |]; [| by apply IH].
  destruct (SplitHostPort (URL_Host u)) as [[host port] |]; [| by apply IH].
  destruct (IH _ Hin) as [Hacc | Hs]; [| by right].
  apply elem_of_app in Hacc as [? | Hnew]; [by left |].
  apply list_elem_of_singleton in Hnew as ->. by right.
Qed.

Lemma announce_addrs_length ip (now : Z) (l : list string) (acc : list address) :
  (length (announce_addrs ip now l acc) <= length acc + length l)%nat.
Proof.
  revert acc. induction l as [| s l IH]; intros acc; simpl; [lia |].
  destruct (url_Parse s) as [u |]; [| etrans; [apply IH | lia]].
  destruct (SplitHostPort (URL_Host u)) as [[host port] |]; [| etrans; [apply IH | lia]].
  etrans; [apply IH |]. rewrite length_app. simpl. lia.
Qed.

Lemma update_other_key w (d : gmap string Encoded) (id id' : string)
    (addrs : list address) (rs : list discover_Relay) :
  id' ≠ id -> update w d id addrs rs !! id' = d !! id'.
Proof.
  intros Hne. unfold update, db_Put.
  destruct (MarshalXDR _) as [data |]; [| done].
  destruct (io_write_err w id); [done |]. by rewrite lookup_insert_ne.
Qed.

Lemma relay_round_trip (rs : list discover_Relay) :
  map to_discover_Relay (map to_relay rs) = rs.
Proof.
  induction rs as [| [a l] rs IH]; [done |]. simpl. by rewrite IH.
Qed.

(** With only unexpired addresses the reply carries them all, in order. *)
Lemma reply_addresses_all (now : Z) (addrs : list address) :
  Forall (fun a => expired now a = false) addrs ->
  reply_addresses now addrs [] = map a_address addrs.
Proof.
  intros Hall. rewrite reply_addresses_filter. simpl. f_equal.
  apply filter_all. eapply Forall_impl; [exact Hall |].
  intros a Ha. simpl. by rewrite Ha.
Qed.

End HandlersMore.

(** X11.  A query reads and never writes: whatever the packet, the
    handler leaves the database, the limiter and the counters of announces,
    limited and unknown packets as they were, and sends at most one
    datagram, to the source of the query. *)
Theorem X11_query_is_read_only {codec : XDRCodec} {wire : Wire}
    (w : io) (addr : UDPAddr) (buf : string) (st : server) :
  let st' := (handleQueryV2 w addr buf st).2 in
  db st' = db st /\ limiter st' = limiter st
  /\ announces st' = announces st /\ limited st' = limited st
  /\ unknowns st' = unknowns st /\ unknown_lines st' = unknown_lines st
  /\ (sent st' = sent st \/ exists tb, sent st' = sent st ++ [(addr, tb)]).
Proof.
  unfold handleQueryV2.
  destruct (Query_UnmarshalXDR buf) as [pkt |]; [| simpl; by repeat split; try left].
  destruct (resolve_id (DeviceID pkt)) as [id |]; [| simpl; by repeat split; try left].
  destruct (get w (db (incr_queries st)) id) as [addrs rs].
  destruct (0 <? length addrs)%nat; [| simpl; by repeat split; try left].
  destruct (_ =? 0)%nat; [simpl; by repeat split; try left |].
  destruct (Announce_MarshalXDR _) as [tb |]; [| simpl; by repeat split; try left].
  destruct (io_send_err w); simpl; [by repeat split; try left |].
  repeat split; try done. right. by exists tb.
Qed.

(** X12.  A query that cannot be answered.  When the packet does not
    decode or its device id is not valid, the handler reports an error and
    the state is untouched, the query not being counted.  When the device
    has no record (no key, or a failed read) the query is counted, no error
    is reported, nothing is sent and [answered] stays. *)
Theorem X12_query_without_answer {codec : XDRCodec} {wire : Wire}
    (w : io) (addr : UDPAddr) (buf : string) (st : server) :
  (Query_UnmarshalXDR buf = None -> handleQueryV2 w addr buf st = (true, st))
  /\ (forall pkt, Query_UnmarshalXDR buf = Some pkt -> resolve_id (DeviceID pkt) = None ->
        handleQueryV2 w addr buf st = (true, st))
  /\ (forall pkt id, Query_UnmarshalXDR buf = Some pkt ->
        resolve_id (DeviceID pkt) = Some id ->
        db st !! id = None \/ io_get_err w id = true ->
        handleQueryV2 w addr buf st = (false, incr_queries st)).
Proof.
  unfold handleQueryV2. split; [by intros -> |].
  split; [by intros pkt -> -> |].
  intros pkt id -> -> Hno.
  assert (get w (db (incr_queries st)) id = ([], [])) as ->; [| done].
  unfold get, read_record, db_Get. simpl.
  destruct Hno as [Hno | Herr]; [| by rewrite Herr].
  destruct (io_get_err w id); [done | by rewrite Hno].
Qed.

(** X13.  An announce is never answered and is counted before its device
    id is looked at.  The handler sends nothing and leaves the limiter and
    the other counters alone.  A packet that does not decode leaves the
    state untouched and is reported.  A packet that decodes is counted in
    [announces] even when its device id is not valid; in that case nothing
    is stored and the error is reported.  The record of any device other
    than the announced one is left as it was. *)
Theorem X13_announce_effects {codec : XDRCodec} {net : NetURL} {wire : Wire}
    (w : io) (addr : UDPAddr) (buf : string) (st : server) :
  let r := handleAnnounceV2 w addr buf st in
  let pkt := (Announce_UnmarshalXDR buf).1 in
  let status := (Announce_UnmarshalXDR buf).2 in
  (sent r.2 = sent st /\ limiter r.2 = limiter st /\ queries r.2 = queries st
   /\ answered r.2 = answered st /\ limited r.2 = limited st /\ unknowns r.2 = unknowns st)
  /\ (status = XdrError -> r = (true, st))
  /\ (status ≠ XdrError -> announces r.2 = incr (announces st))
  /\ (status ≠ XdrError -> resolve_id (ID (This pkt)) = None ->
        r.1 = true /\ db r.2 = db st)
  /\ (forall id', resolve_id (ID (This pkt)) ≠ Some id' -> db r.2 !! id' = db st !! id').
Proof.
  unfold handleAnnounceV2.
  destruct (Announce_UnmarshalXDR buf) as [pkt status]. simpl.
  destruct status; simpl.
  1, 2: destruct (resolve_id (ID (This pkt))) as [id |] eqn:Hid; simpl;
        repeat split; try done;
        intros id' Hne; apply update_other_key; congruence.
  repeat split; try done.
Qed.

Lemma merge_elem {net : NetURL} (cur addrs : list address) (a : address) :
  a ∈ merge cur addrs -> a ∈ cur \/ a ∈ addrs.
Proof.
  unfold merge. revert cur. induction addrs as [| n addrs IH]; intros cur Ha; [by left |].
  simpl in Ha. destruct (IH _ Ha) as [Hc | Hc]; [| right; by right].
  destruct (merge_one_elem cur n a Hc) as [? | ->]; [by left |]. right. by left.
Qed.

(** X14.  The addresses that an announce hands to [update]: at most one
    per announced address, and every one of them stamped with the time of
    the announce. *)
Theorem X14_announced_addresses_stamped {net : NetURL}
    (ip : list Z) (now : Z) (l : list string) :
  (length (announce_addrs ip now l []) <= length l)%nat
  /\ Forall (fun a => a_seen a = now) (announce_addrs ip now l []).
Proof.
  split; [apply (announce_addrs_length ip now l []) |].
  apply Forall_forall. intros a Hin.
  destruct (announce_addrs_stamped ip now l [] a Hin) as [Hnil | Hs]; [| done].
  by apply elem_of_nil in Hnil.
Qed.

(** X15.  Announce, then query.  A device without a record announces
    itself, and is queried at most one retention window later: the reply
    that is sent carries the queried id, every address that the announce
    stored, in the stored order, and the relays of the announce as they
    were announced; it goes to the source of the query and is counted in
    [answered]. *)
Theorem X15_announce_then_query {codec : XDRCodec} {net : NetURL} {wire : Wire}
    (w1 w2 : io) (src1 src2 : UDPAddr) (buf1 buf2 : string) (st : server)
    (pkt : discover_Announce) (status : xdr_status) (q : discover_Query)
    (id : string) (tb : string) :
  Announce_UnmarshalXDR buf1 = (pkt, status) -> status ≠ XdrError ->
  resolve_id (ID (This pkt)) = Some id ->
  Query_UnmarshalXDR buf2 = Some q -> resolve_id (DeviceID q) = Some id ->
  (forall l, is_Some (MarshalXDR l)) ->
  io_get_err w1 id = false -> io_write_err w1 id = false -> io_get_err w2 id = false ->
  io_send_err w2 = false ->
  db st !! id = None ->
  0 <= Unix (io_time w2) - Unix (io_time w1) <= cacheLimitSeconds ->
  let stored :=
    merge [] (announce_addrs (source_ip src1) (Unix (io_time w1)) (Addresses (This pkt)) []) in
  stored ≠ [] ->
  Announce_MarshalXDR
    (mkAnnounce AnnouncementMagic
       (mkDevice (DeviceID q) (map a_address stored) (Relays (This pkt)))) = Some tb ->
  let st1 := (handleAnnounceV2 w1 src1 buf1 st).2 in
  let st2 := (handleQueryV2 w2 src2 buf2 st1).2 in
  sent st2 = sent st ++ [(src2, tb)]
  /\ answered st2 = incr (answered st)
  /\ announces st2 = incr (announces st)
  /\ queries st2 = incr (queries st).
Proof.
  intros Hd Hs Hid Hq Hqid Hm Hg1 Hw1 Hg2 Hsend Hnone Hage stored Hne Htb st1 st2.
  subst st1 st2.
  rewrite (handleAnnounceV2_ok w1 src1 buf1 st pkt status id Hd Hs Hid). simpl.
  set (addrs := announce_addrs _ _ _ _) in *.
  set (st1 := set_db _ _).
  assert (exists val, db st1 !! id = Some val
            /\ UnmarshalXDR val = mkAddressList stored (map to_relay (Relays (This pkt))))
    as (val & Hval & Hrec).
  { subst st1. simpl. unfold update.
    rewrite (read_record_absent w1 (db st) id Hnone). simpl.
    destruct (Hm (mkAddressList (merge [] addrs) (map to_relay (Relays (This pkt)))))
      as [data Hdata].
    rewrite Hdata. unfold db_Put. rewrite Hw1. exists data.
    rewrite lookup_insert_eq. split; [done |]. by apply UnmarshalXDR_MarshalXDR. }
  rewrite (handleQueryV2_stored w2 src2 buf2 st1 q id val Hq Hqid Hg2 Hval).
  rewrite Hrec. simpl.
  assert (Forall (fun a => expired (Unix (io_time w2)) a = false) stored) as Hfresh.
  { apply Forall_forall. intros a Hin.
    destruct (merge_elem [] addrs a Hin) as [Hnil | Hin'];
      [by apply elem_of_nil in Hnil |].
    destruct (announce_addrs_stamped _ _ _ _ _ Hin') as [Hnil | Hseen];
      [by apply elem_of_nil in Hnil |].
    unfold expired, sub64. rewrite Hseen.
    rewrite wrap64_small by (unfold int64_range, cacheLimitSeconds in *; lia).
    apply Z.ltb_ge. lia. }
  assert (List.filter (fun a => negb (expired (Unix (io_time w2)) a)) stored = stored) as ->.
  { apply filter_all. eapply Forall_impl; [exact Hfresh |]. intros a Ha. by rewrite Ha. }
  rewrite relay_round_trip.
  destruct (map a_address stored) as [| s l] eqn:Hmap.
  { destruct stored; [done | discriminate]. }
  rewrite Htb, Hsend. by subst st1.
Qed.

Lemma X15_announce_then_query_witness :
  let pkt := mkAnnounce 2642000960
               (mkDevice sample_id ["tcp://:4000"] [mkDRelay "relay://9.9.9.9:443" 12]) in
  let q := mkQuery 749229814 sample_id in
  let wire := fixed_wire pkt XdrOk (Some q) in
  let w1 := calm 1000000000000 in
  let w2 := calm 1600000000000 in
  let st : @server plain_codec := @start_server plain_codec default_config ∅ in
  let tb := sample_id +:+ " tcp://203.0.113.5:4000" in
  let st2 := (@handleQueryV2 plain_codec wire w2 sample_source ""
                (@handleAnnounceV2 plain_codec go_net wire w1 sample_source "" st).2).2 in
  (@Announce_UnmarshalXDR wire "" = (pkt, XdrOk) /\ XdrOk ≠ XdrError
   /\ @resolve_id wire (ID (This pkt)) = Some sample_id
   /\ @Query_UnmarshalXDR wire "" = Some q
   /\ @resolve_id wire (DeviceID q) = Some sample_id
   /\ (forall l, is_Some (@MarshalXDR plain_codec l))
   /\ io_get_err w1 sample_id = false /\ io_write_err w1 sample_id = false
   /\ io_get_err w2 sample_id = false /\ io_send_err w2 = false
   /\ db st !! sample_id = None
   /\ 0 <= Unix (io_time w2) - Unix (io_time w1) <= cacheLimitSeconds)
  /\ sent st2 = [(sample_source, tb)] /\ answered st2 = 1
  /\ announces st2 = 1 /\ queries st2 = 1.
Proof.
  intros pkt q wire w1 w2 st tb st2.
  assert (@Announce_UnmarshalXDR wire "" = (pkt, XdrOk)) as H1 by reflexivity.
  assert (XdrOk ≠ XdrError) as H2 by discriminate.
  assert (@resolve_id wire (ID (This pkt)) = Some sample_id) as H3 by reflexivity.
  assert (@Query_UnmarshalXDR wire "" = Some q) as H4 by reflexivity.
  assert (@resolve_id wire (DeviceID q) = Some sample_id) as H5 by reflexivity.
  assert (forall l, is_Some (@MarshalXDR plain_codec l)) as H6 by (intros l; by eexists).
  assert (io_get_err w1 sample_id = false) as H7 by reflexivity.
  assert (io_write_err w1 sample_id = false) as H8 by reflexivity.
  assert (io_get_err w2 sample_id = false) as H9 by reflexivity.
  assert (io_send_err w2 = false) as H10 by reflexivity.
  assert (db st !! sample_id = None) as H11 by reflexivity.
  assert (0 <= Unix (io_time w2) - Unix (io_time w1) <= cacheLimitSeconds) as H12
    by (vm_compute; split; discriminate).
  split; [by repeat split |].
  apply (@X15_announce_then_query plain_codec go_net wire w1 w2 sample_source sample_source
           "" "" st pkt XdrOk q sample_id tb H1 H2 H3 H4 H5 H6 H7 H8 H9 H10 H11 H12).
  - vm_compute. discriminate.
  - vm_compute. reflexivity.
Defined.

(** * Further properties of the receive loop *)

Section ServeMore.
Context {codec : XDRCodec} {net : NetURL} {wire : Wire}.
Implicit Types (st : server) (w : io) (cfg : config) (rc : datagram).

(** [limit] changes the limiter, and [limited] when it ignores the
    packet; nothing else. *)
Lemma limit_effects cfg w (addr : UDPAddr) st (b : bool) st' :
  limit cfg w addr st = Running (b, st') ->
  db st' = db st /\ sent st' = sent st /\ unknown_lines st' = unknown_lines st
  /\ queries st' = queries st /\ answered st' = answered st
  /\ announces st' = announces st /\ unknowns st' = unknowns st
  /\ limited st' = (if b then incr (limited st) else limited st).
Proof.
  unfold limit. destruct (lru_Get _ _) as [[bkt |] c].
  - destruct (TakeAvailable (io_time w) 1 bkt) as [n bkt'].
    destruct (negb (n =? 1)); intros [= <- <-]; by repeat split.
  - destruct (limit_interval cfg) as [intv |]; [| done].
    destruct (NewBucket _ _ _) as [bkt |]; [| done].
    intros [= <- <-]. by repeat split.
Qed.

Lemma handleQueryV2_counters w (addr : UDPAddr) (buf : string) st :
  let st' := (handleQueryV2 w addr buf st).2 in
  (queries st' = queries st /\ answered st' = answered st
   \/ queries st' = incr (queries st)
      /\ (answered st' = answered st \/ answered st' = incr (answered st)))
  /\ announces st' = announces st /\ unknowns st' = unknowns st
  /\ limited st' = limited st.
Proof.
  unfold handleQueryV2.
  destruct (Query_UnmarshalXDR buf) as [pkt |]; [| simpl; by repeat split; try left].
  destruct (resolve_id (DeviceID pkt)) as [id |]; [| simpl; by repeat split; try left].
  destruct (get w (db (incr_queries st)) id) as [addrs rs].
  destruct (0 <? length addrs)%nat; [| simpl; split; [right; split; [done | by left] | done]].
  destruct (_ =? 0)%nat; [simpl; split; [right; split; [done | by left] | done] |].
  destruct (Announce_MarshalXDR _) as [tb |];
    [| simpl; split; [right; split; [done | by left] | done]].
  destruct (io_send_err w); simpl; split; try done; right; split; try done;
    [by left | by right].
Qed.

Lemma handleAnnounceV2_counters w (addr : UDPAddr) (buf : string) st :
  let st' := (handleAnnounceV2 w addr buf st).2 in
  (announces st' = announces st \/ announces st' = incr (announces st))
  /\ queries st' = queries st /\ answered st' = answered st
  /\ unknowns st' = unknowns st /\ limited st' = limited st.
Proof.
  unfold handleAnnounceV2. destruct (Announce_UnmarshalXDR buf) as [pkt status].
  destruct status; simpl; try (by repeat split; try left);
    destruct (resolve_id (ID (This pkt))); simpl; by repeat split; try right.
Qed.

Lemma log_unknown_counters cfg (tag buf : string) st :
  queries (log_unknown cfg tag buf st) = queries st
  /\ answered (log_unknown cfg tag buf st) = answered st
  /\ announces (log_unknown cfg tag buf st) = announces st
  /\ unknowns (log_unknown cfg tag buf st) = unknowns st
  /\ limited (log_unknown cfg tag buf st) = limited st
  /\ db (log_unknown cfg tag buf st) = db st
  /\ sent (log_unknown cfg tag buf st) = sent st.
Proof. unfold log_unknown. by destruct (unknownLog cfg). Qed.

Lemma serve_one_counted_once cfg w rc st st' :
  serve_one cfg w rc st = Running st' -> counted_once st st'.
Proof.
  unfold serve_one. destruct (rc_addr rc) as [addr |]; [| done].
  destruct (limit cfg w addr st) as [[b st1] |] eqn:Hl; [| done].
  destruct (limit_effects cfg w addr st b st1 Hl)
    as (_ & _ & _ & Hq & Ha & Hn & Hu & Hlim).
  destruct b.
  { intros [= <-]. right. left. by repeat split. }
  destruct (rc_err rc); [done |].
  destruct (String.length (rc_buf rc) <? 4)%nat.
  { intros [= <-]. left. by repeat split. }
  destruct (BigEndian_Uint32 (rc_buf rc) =? AnnouncementMagic).
  { pose proof (handleAnnounceV2_counters w addr (rc_buf rc) st1) as Hc.
    destruct (handleAnnounceV2 w addr (rc_buf rc) st1) as [err st2]. simpl in Hc.
    destruct Hc as (Hann & Hq2 & Ha2 & Hu2 & Hl2).
    intros [= <-].
    assert (forall x, queries x = queries st2 -> answered x = answered st2 ->
              announces x = announces st2 -> unknowns x = unknowns st2 ->
              limited x = limited st2 -> counted_once st x) as Hfin.
    { intros x E1 E2 E3 E4 E5. destruct Hann as [Hann | Hann].
      - left. repeat split; congruence.
      - right. right. left. repeat split; congruence. }
    destruct err; [| by apply Hfin].
    destruct (log_unknown_counters cfg "AE" (rc_buf rc) st2) as (E1 & E2 & E3 & E4 & E5 & _).
    by apply Hfin. }
  destruct (BigEndian_Uint32 (rc_buf rc) =? QueryMagic).
  { pose proof (handleQueryV2_counters w addr (rc_buf rc) st1) as Hc.
    destruct (handleQueryV2 w addr (rc_buf rc) st1) as [err st2]. simpl in Hc.
    destruct Hc as (Hqa & Hn2 & Hu2 & Hl2).
    intros [= <-].
    assert (forall x, queries x = queries st2 -> answered x = answered st2 ->
              announces x = announces st2 -> unknowns x = unknowns st2 ->
              limited x = limited st2 -> counted_once st x) as Hfin.
    { intros x E1 E2 E3 E4 E5. destruct Hqa as [[Hq2 Ha2] | [Hq2 Ha2]].
      - left. repeat split; congruence.
      - right. right. right. left.
        split; [congruence |]. split; [| repeat split; congruence].
        destruct Ha2 as [Ha2 | Ha2]; [left | right]; congruence. }
    destruct err; [| by apply Hfin].
    destruct (log_unknown_counters cfg "QE" (rc_buf rc) st2) as (E1 & E2 & E3 & E4 & E5 & _).
    by apply Hfin. }
  intros [= <-].
  destruct (log_unknown_counters cfg "UN" (rc_buf rc) (incr_unknowns st1))
    as (E1 & E2 & E3 & E4 & E5 & _).
  right. right. right. right. simpl in *. repeat split; congruence.
Qed.

End ServeMore.

(** X16.  A packet that the limiter ignores is dropped before anything
    else is looked at, a read error included: the turn ends with the loop
    going on, the registry, the datagrams sent, the unknown-packet log and
    the other counters as they were, and [limited] one higher. *)
Theorem X16_limited_packet_dropped {codec : XDRCodec} {net : NetURL} {wire : Wire}
    (cfg : config) (w : io) (rc : datagram) (st st1 : server) (addr : UDPAddr) :
  rc_addr rc = Some addr ->
  limit cfg w addr st = Running (true, st1) ->
  serve_one cfg w rc st = Running st1
  /\ db st1 = db st /\ sent st1 = sent st /\ unknown_lines st1 = unknown_lines st
  /\ queries st1 = queries st /\ answered st1 = answered st
  /\ announces st1 = announces st /\ unknowns st1 = unknowns st
  /\ limited st1 = incr (limited st).
Proof.
  intros Ha Hl. split; [unfold serve_one; by rewrite Ha, Hl |].
  by apply (limit_effects cfg w addr st true st1 Hl).
Qed.

Lemma X16_limited_packet_dropped_witness :
  let wire := fixed_wire (mkAnnounce 0 (mkDevice "" [] [])) XdrOk None in
  let bkt := mkBucket 0 10 1 10000000000 0 0 in
  let st : @server plain_codec :=
    mkServer ∅ (mkCache 1024 [("203.0.113.5", bkt)]) 0 0 0 0 0 [] [] in
  let st1 : @server plain_codec :=
    mkServer ∅ (mkCache 1024 [("203.0.113.5", bkt)]) 0 0 0 1 0 [] [] in
  let rc := mkDatagram "abcdef" (Some sample_source) true in
  (rc_addr rc = Some sample_source
   /\ @limit plain_codec go_net default_config (calm 5) sample_source st = Running (true, st1))
  /\ @serve_one plain_codec go_net wire default_config (calm 5) rc st = Running st1.
Proof.
  intros wire bkt st st1 rc.
  assert (rc_addr rc = Some sample_source) as Ha by reflexivity.
  assert (@limit plain_codec go_net default_config (calm 5) sample_source st
          = Running (true, st1)) as Hl by (vm_compute; reflexivity).
  split; [by split |].
  apply (@X16_limited_packet_dropped plain_codec go_net wire default_config (calm 5)
           rc st st1 sample_source Ha Hl).
Defined.

(** X17.  Packets that are neither announce nor query.  A datagram of
    fewer than four bytes that passes the limiter is dropped without being
    counted.  A datagram whose first four bytes are neither magic number is
    counted in [unknowns], and logged when the unknown-packet log is open.
    In both cases the registry is not touched and nothing is sent. *)
Theorem X17_short_and_unknown_packets {codec : XDRCodec} {net : NetURL} {wire : Wire}
    (cfg : config) (w : io) (rc : datagram) (st st1 : server) (addr : UDPAddr) :
  rc_addr rc = Some addr -> rc_err rc = false ->
  limit cfg w addr st = Running (false, st1) ->
  ((String.length (rc_buf rc) < 4)%nat -> serve_one cfg w rc st = Running st1)
  /\ ((4 <= String.length (rc_buf rc))%nat ->
      BigEndian_Uint32 (rc_buf rc) ≠ AnnouncementMagic ->
      BigEndian_Uint32 (rc_buf rc) ≠ QueryMagic ->
      exists st',
        serve_one cfg w rc st = Running st'
        /\ unknowns st' = incr (unknowns st)
        /\ db st' = db st /\ sent st' = sent st
        /\ unknown_lines st'
           = (if unknownLog cfg then unknown_lines st ++ [("UN"%string, rc_buf rc)]
              else unknown_lines st)).
Proof.
  intros Ha He Hl.
  destruct (limit_effects cfg w addr st false st1 Hl)
    as (Hdb & Hsent & Hlines & _ & _ & _ & Hu & _).
  split.
  - intros Hshort. unfold serve_one. rewrite Ha, Hl, He.
    by replace (_ <? 4)%nat with true by (symmetry; by apply Nat.ltb_lt).
  - intros Hlong HA HQ. unfold serve_one. rewrite Ha, Hl, He.
    replace (_ <? 4)%nat with false by (symmetry; by apply Nat.ltb_ge).
    replace (_ =? AnnouncementMagic) with false by (symmetry; by apply Z.eqb_neq).
    replace (_ =? QueryMagic) with false by (symmetry; by apply Z.eqb_neq).
    eexists. split; [reflexivity |].
    unfold log_unknown. destruct (unknownLog cfg); simpl; repeat split; congruence.
Qed.

Lemma X17_short_and_unknown_packets_witness :
  let wire := fixed_wire (mkAnnounce 0 (mkDevice "" [] [])) XdrOk None in
  let cfg := mkConfig 1024 1 10 true in
  let st : @server plain_codec := @start_server plain_codec cfg ∅ in
  let rc := mkDatagram "abcdef" (Some sample_source) false in
  (rc_addr rc = Some sample_source /\ rc_err rc = false
   /\ exists st1, @limit plain_codec go_net cfg (calm 5) sample_source st
                  = Running (false, st1))
  /\ exists st',
       @serve_one plain_codec go_net wire cfg (calm 5) rc st = Running st'
       /\ unknowns st' = 1 /\ db st' = db st /\ sent st' = sent st
       /\ unknown_lines st' = [("UN"%string, "abcdef"%string)].
Proof.
  intros wire cfg st rc.
  assert (rc_addr rc = Some sample_source) as Ha by reflexivity.
  assert (rc_err rc = false) as He by reflexivity.
  destruct (@limit plain_codec go_net cfg (calm 5) sample_source st) as [[b st1] |] eqn:Hl;
    [| vm_compute in Hl; discriminate].
  assert (b = false) as -> by (vm_compute in Hl; congruence).
  split; [repeat split; by eexists |].
  destruct (@X17_short_and_unknown_packets plain_codec go_net wire cfg (calm 5)
              rc st st1 sample_source Ha He Hl) as [_ Hunk].
  apply Hunk; vm_compute; (lia || discriminate).
Defined.

(** X18.  One datagram is counted at most once: after a turn of the
    receive loop either no counter has moved, or exactly one of [limited],
    [announces], [queries] and [unknowns] is one higher; [answered] only
    moves, by one, together with [queries]. *)
Theorem X18_datagram_counted_once {codec : XDRCodec} {net : NetURL} {wire : Wire}
    (cfg : config) (w : io) (rc : datagram) (st st' : server) :
  serve_one cfg w rc st = Running st' -> counted_once st st'.
Proof. apply serve_one_counted_once. Qed.

Lemma X18_datagram_counted_once_witness :
  let wire := fixed_wire (mkAnnounce 0 (mkDevice "" [] [])) XdrOk None in
  let st : @server plain_codec := @start_server plain_codec default_config ∅ in
  let rc := mkDatagram "abcdef" (Some sample_source) false in
  exists st',
    @serve_one plain_codec go_net wire default_config (calm 5) rc st = Running st'
    /\ @counted_once plain_codec st st'.
Proof.
  intros wire st rc.
  destruct (@serve_one plain_codec go_net wire default_config (calm 5) rc st)
    as [st' |] eqn:Hs; [| vm_compute in Hs; discriminate].
  exists st'. split; [reflexivity |].
  exact (@X18_datagram_counted_once plain_codec go_net wire default_config (calm 5)
           rc st st' Hs).
Defined.



(** * Further properties of the limiter *)

Lemma lru_find_None_keys (key : string) (l : list (string * Bucket)) :
  lru_find key l = None <-> key ∉ l.*1.
Proof.
  induction l as [| [k v] l IH]; simpl.
  - split; [intros _ H; by apply elem_of_nil in H | done].
  - destruct (String.eqb k key) eqn:He.
    + apply String.eqb_eq in He as ->. split; [done |]. intros H. exfalso. apply H. left.
    + apply String.eqb_neq in He. rewrite IH. rewrite not_elem_of_cons.
      split; [intros ?; split; [congruence | done] | by intros [_ ?]].
Qed.

Lemma lru_find_remove_ne (key key' : string) (l : list (string * Bucket)) :
  key' ≠ key -> lru_find key' (lru_remove key l) = lru_find key' l.
Proof.
  intros Hne. induction l as [| [k v] l IH]; [done |]. simpl.
  destruct (String.eqb k key) eqn:He.
  - apply String.eqb_eq in He as ->.
    by replace (String.eqb key key') with false
      by (symmetry; apply String.eqb_neq; congruence).
  - simpl. by rewrite IH.
Qed.

Lemma lru_remove_sublist (key : string) (l : list (string * Bucket)) :
  (lru_remove key l).*1 `sublist_of` l.*1.
Proof.
  induction l as [| [k v] l IH]; [done |]. simpl.
  destruct (String.eqb k key); simpl; [by apply sublist_cons | by apply sublist_skip].
Qed.

Lemma lru_remove_found (key : string) (v : Bucket) (l : list (string * Bucket)) :
  lru_find key l = Some v -> NoDup l.*1 ->
  S (length (lru_remove key l)) = length l /\ key ∉ (lru_remove key l).*1.
Proof.
  induction l as [| [k b] l IH]; [done |]. simpl.
  intros Hf Hnd. apply NoDup_cons in Hnd as [Hk Hnd].
  destruct (String.eqb k key) eqn:He.
  - apply String.eqb_eq in He as ->. done.
  - apply String.eqb_neq in He. destruct (IH Hf Hnd) as [Hlen Hnot].
    simpl. split; [lia |]. apply not_elem_of_cons. split; [congruence | done].
Qed.

(** The cache invariant: distinct keys, and no more entries than a
    positive [MaxEntries]. *)
Lemma lru_Get_bounded (key : string) (c : Cache) :
  NoDup (ll c).*1 ->
  NoDup (ll (lru_Get key c).2).*1
  /\ length (ll (lru_Get key c).2) = length (ll c)
  /\ MaxEntries (lru_Get key c).2 = MaxEntries c.
Proof.
  intros Hnd. unfold lru_Get. destruct (lru_find key (ll c)) as [v |] eqn:Hf; [| done].
  destruct (lru_remove_found key v (ll c) Hf Hnd) as [Hlen Hnot]. simpl.
  split; [| by split]. apply NoDup_cons. split; [done |].
  eapply sublist_NoDup; [exact Hnd | apply lru_remove_sublist].
Qed.

Lemma lru_Add_bounded (key : string) (v : Bucket) (c : Cache) :
  lru_find key (ll c) = None -> NoDup (ll c).*1 ->
  0 < MaxEntries c -> Z.of_nat (length (ll c)) <= MaxEntries c ->
  NoDup (ll (lru_Add key v c)).*1
  /\ Z.of_nat (length (ll (lru_Add key v c))) <= MaxEntries c
  /\ MaxEntries (lru_Add key v c) = MaxEntries c.
Proof.
  intros Hf Hnd Hpos Hlen. unfold lru_Add. rewrite Hf.
  assert (NoDup ((key, v) :: ll c).*1) as Hnd'.
  { simpl. apply NoDup_cons. split; [by apply lru_find_None_keys | done]. }
  assert (removelast ((key, v) :: ll c) = take (length (ll c)) ((key, v) :: ll c)) as Hrl
    by (by rewrite removelast_firstn_len).
  destruct (negb (MaxEntries c =? 0) && _) eqn:Hev; cbn [ll MaxEntries].
  - rewrite Hrl. split; [| split; [| done]].
    + rewrite fmap_take.
      eapply sublist_NoDup; [exact Hnd' | apply sublist_take].
    + rewrite length_take. simpl. lia.
  - split; [done |]. split; [| done].
    apply andb_false_iff in Hev as [Hz | Hle].
    + apply negb_false_iff, Z.eqb_eq in Hz. lia.
    + apply Z.ltb_ge in Hle. exact Hle.
Qed.

Lemma lru_poke_bounded (key : string) (v : Bucket) (c : Cache) :
  (ll (lru_poke key v c)).*1 = (ll c).*1
  /\ MaxEntries (lru_poke key v c) = MaxEntries c.
Proof.
  unfold lru_poke. destruct (ll c) as [| [k b] l] eqn:Hl; [by rewrite Hl |].
  destruct (String.eqb k key); simpl; by rewrite ?Hl.
Qed.

Section LimitMore.
Context {codec : XDRCodec} {net : NetURL}.
Implicit Types (st : server) (w : io) (cfg : config).

Lemma limit_cache_bounded cfg w (addr : UDPAddr) st (b : bool) st' :
  limit cfg w addr st = Running (b, st') ->
  NoDup (ll (limiter st)).*1 ->
  0 < MaxEntries (limiter st) ->
  Z.of_nat (length (ll (limiter st))) <= MaxEntries (limiter st) ->
  NoDup (ll (limiter st')).*1
  /\ Z.of_nat (length (ll (limiter st'))) <= MaxEntries (limiter st')
  /\ MaxEntries (limiter st') = MaxEntries (limiter st).
Proof.
  intros Hl Hnd Hpos Hlen. unfold limit in Hl.
  pose proof (lru_Get_bounded (IP_String (IP addr)) (limiter st) Hnd) as (Hnd1 & Hlen1 & Hm1).
  destruct (lru_Get (IP_String (IP addr)) (limiter st)) as [[bkt |] c] eqn:Hg; simpl in *.
  - destruct (TakeAvailable (io_time w) 1 bkt) as [n bkt'].
    destruct (lru_poke_bounded (IP_String (IP addr)) bkt' c) as [Hkeys Hm2].
    assert (length (ll (lru_poke (IP_String (IP addr)) bkt' c)) = length (ll c)) as Hlen2.
    { by rewrite <- (length_fmap fst), Hkeys, length_fmap. }
    destruct (negb (n =? 1)); injection Hl as <- <-; simpl;
      rewrite Hkeys, Hlen2, Hm2; (split; [done |]); split; lia.
  - assert (c = limiter st) as ->.
    { unfold lru_Get in Hg. by destruct (lru_find _ _); [| injection Hg]. }
    assert (lru_find (IP_String (IP addr)) (ll (limiter st)) = None) as Hf.
    { unfold lru_Get in Hg. by destruct (lru_find _ _). }
    destruct (limit_interval cfg) as [intv |]; [| done].
    destruct (NewBucket _ _ _) as [bkt |]; [| done].
    injection Hl as <- <-. simpl.
    destruct (lru_Add_bounded (IP_String (IP addr)) bkt (limiter st) Hf Hnd Hpos Hlen)
      as (H1 & H2 & H3).
    rewrite H3. by repeat split.
Qed.

Lemma handleAnnounceV2_limiter {wire : Wire} w (addr : UDPAddr) (buf : string) st :
  limiter (handleAnnounceV2 w addr buf st).2 = limiter st.
Proof.
  unfold handleAnnounceV2. destruct (Announce_UnmarshalXDR buf) as [pkt status].
  destruct status; simpl; try done; by destruct (resolve_id (ID (This pkt))).
Qed.

Lemma handleQueryV2_limiter {wire : Wire} w (addr : UDPAddr) (buf : string) st :
  limiter (handleQueryV2 w addr buf st).2 = limiter st.
Proof.
  unfold handleQueryV2.
  destruct (Query_UnmarshalXDR buf) as [pkt |]; [| done].
  destruct (resolve_id (DeviceID pkt)) as [id |]; [| done].
  destruct (get w (db (incr_queries st)) id) as [addrs rs].
  destruct (0 <? length addrs)%nat; [| done].
  destruct (_ =? 0)%nat; [done |].
  destruct (Announce_MarshalXDR _) as [tb |]; [| done].
  by destruct (io_send_err w).
Qed.

Lemma serve_one_limiter cfg {wire : Wire} w (rc : datagram) st st' :
  serve_one cfg w rc st = Running st' ->
  exists addr b st1, limit cfg w addr st = Running (b, st1) /\ limiter st' = limiter st1.
Proof.
  unfold serve_one. destruct (rc_addr rc) as [addr |]; [| done].
  destruct (limit cfg w addr st) as [[b st1] |] eqn:Hl; [| done].
  intros Hs. exists addr, b, st1. split; [done |].
  destruct b; [by injection Hs as <- |].
  destruct (rc_err rc); [done |].
  destruct (String.length (rc_buf rc) <? 4)%nat; [by injection Hs as <- |].
  destruct (BigEndian_Uint32 (rc_buf rc) =? AnnouncementMagic).
  { pose proof (handleAnnounceV2_limiter w addr (rc_buf rc) st1) as Hlim.
    destruct (handleAnnounceV2 w addr (rc_buf rc) st1) as [err st2]. simpl in Hlim.
    injection Hs as <-. destruct err; [| done].
    unfold log_unknown. by destruct (unknownLog cfg). }
  destruct (BigEndian_Uint32 (rc_buf rc) =? QueryMagic).
  { pose proof (handleQueryV2_limiter w addr (rc_buf rc) st1) as Hlim.
    destruct (handleQueryV2 w addr (rc_buf rc) st1) as [err st2]. simpl in Hlim.
    injection Hs as <-. destruct err; [| done].
    unfold log_unknown. by destruct (unknownLog cfg). }
  injection Hs as <-. unfold log_unknown. by destruct (unknownLog cfg).
Qed.

End LimitMore.

(** Any take at a later or equal tick: zero or one token is handed out,
    the bucket stays within its bounds, and [avail - availTick] goes down
    by what was handed out at least. *)
Lemma TakeAvailable_step (now t1 I B tick tick' : Z) (b : Bucket) :
  bucket_ok t1 I B tick b -> 0 < B < 2 ^ 62 ->
  quot64 (time_Sub now t1) I = tick' -> tick <= tick' < 2 ^ 62 ->
  exists n b',
    TakeAvailable now 1 b = (n, b') /\ (n = 0 \/ n = 1)
    /\ bucket_ok t1 I B tick' b'
    /\ n + (avail b' - availTick b') <= avail b - availTick b.
Proof.
  intros (Hs & Hc & Hq & Hi & Ha & Ht) HB Htick Hlt.
  unfold TakeAvailable. simpl (1 <=? 0). cbv iota.
  assert (exists b1, adjust now b = b1 /\ bucket_ok t1 I B tick' b1
                     /\ avail b1 - availTick b1 <= avail b - availTick b)
    as (b1 & -> & (Hs1 & Hc1 & Hq1 & Hi1 & Ha1 & Ht1) & Hpot).
  { unfold adjust. rewrite Hs, Hi, Htick, Hc, Hq.
    destruct (B <=? avail b) eqn:Hfull.
    - exists b. split; [done |]. split; [| lia].
      unfold bucket_ok. repeat split; try done; lia.
    - apply Z.leb_gt in Hfull. eexists. split; [reflexivity |].
      unfold sub64, mul64, add64.
      rewrite (wrap64_small (tick' - _)) by (unfold int64_range; lia).
      rewrite Z.mul_1_r, (wrap64_small (tick' - _)) by (unfold int64_range; lia).
      rewrite wrap64_small by (unfold int64_range; lia).
      destruct (B <? _) eqn:Hcap.
      + apply Z.ltb_lt in Hcap. unfold bucket_ok. simpl. repeat split; lia.
      + apply Z.ltb_ge in Hcap. unfold bucket_ok. simpl. repeat split; lia. }
  destruct (avail b1 <=? 0) eqn:Hz.
  - exists 0, b1. split; [done |]. split; [by left |].
    split; [unfold bucket_ok; repeat split; try done; lia | lia].
  - apply Z.leb_gt in Hz.
    replace (avail b1 <? 1) with false by (symmetry; apply Z.ltb_ge; lia).
    eexists 1, _. split; [reflexivity |]. split; [by right |].
    unfold sub64. rewrite wrap64_small by (unfold int64_range; lia).
    unfold bucket_ok. simpl. repeat split; lia.
Qed.

Lemma last_cons_default {A : Type} (l : list A) (x d : A) :
  List.last (x :: l) d = List.last l x.
Proof.
  revert x d. induction l as [| y l IH]; intros x d; [done |].
  change (List.last (x :: y :: l) d) with (List.last (y :: l) d).
  by rewrite !IH.
Qed.

Section RateBound.
Context {codec : XDRCodec} {net : NetURL}.
Implicit Types (st : server) (w : io) (cfg : config).

Lemma limit_seq_bound cfg (addr : UDPAddr) (t1 I tk : Z) (ws : list io) st
    (b : Bucket) (rest : list (string * Bucket)) :
  0 <= t1 <= tk -> 0 < I -> 0 < limitBurst cfg < 2 ^ 62 ->
  paced 0 tk (map io_time ws) ->
  Forall (fun w => io_time w < 2 ^ 62) ws ->
  ll (limiter st) = (IP_String (IP addr), b) :: rest ->
  bucket_ok t1 I (limitBurst cfg) ((tk - t1) / I) b ->
  exists bs st' b',
    limit_seq cfg ws addr st = Running (bs, st')
    /\ length bs = length ws
    /\ bucket_ok t1 I (limitBurst cfg) ((List.last (map io_time ws) tk - t1) / I) b'
    /\ Z.of_nat (passed bs) + (avail b' - availTick b') <= avail b - availTick b.
Proof.
  intros Ht1 HI HB Hp Hws. revert st tk b Ht1 Hp.
  induction Hws as [| w ws Hw Hws IH]; intros st tk b Ht1 Hp Hl Hb.
  - exists [], st, b. simpl.
    split; [done |]. split; [done |]. split; [exact Hb |]. unfold passed. simpl. lia.
  - simpl in Hp. destruct Hp as [Hgap Hp].
    simpl limit_seq. rewrite (limit_hit _ _ _ _ _ _ Hl).
    destruct (tick_small (io_time w) t1 I ltac:(lia) Hw HI) as [Htick Hrange].
    assert ((tk - t1) / I <= (io_time w - t1) / I) as Hmono
      by (apply Z.div_le_mono; lia).
    destruct (TakeAvailable_step (io_time w) t1 I (limitBurst cfg)
                ((tk - t1) / I) ((io_time w - t1) / I) b Hb HB Htick ltac:(lia))
      as (n & b1 & -> & Hn & Hb1 & Hpot).
    set (c1 := mkCache _ _).
    assert (exists stn, (if negb (n =? 1)
                         then Running (true, incr_limited (set_limiter c1 st))
                         else Running (false, set_limiter c1 st))
                        = Running (negb (n =? 1), stn)
                        /\ ll (limiter stn) = (IP_String (IP addr), b1) :: rest)
      as (stn & Hv & Hln).
    { destruct (negb (n =? 1)); eexists; (split; [reflexivity | done]). }
    cbv zeta. rewrite Hv.
    destruct (IH stn (io_time w) b1 ltac:(lia) Hp Hln Hb1)
      as (bs & st' & b' & -> & Hlen & Hb' & Hpot').
    exists (negb (n =? 1) :: bs), st', b'.
    split; [done |]. split; [simpl; by rewrite Hlen |].
    split.
    { change (map io_time (w :: ws)) with (io_time w :: map io_time ws).
      by rewrite last_cons_default. }
    unfold passed in *. simpl.
    destruct Hn as [-> | ->]; simpl; lia.
Qed.

End RateBound.

(** X20.  The limiter cache keeps its size: started empty with a positive
    size, it never holds more entries than that size, and never two
    entries for one source, however many datagrams are served. *)
Theorem X20_cache_never_exceeds_size {codec : XDRCodec} {net : NetURL} {wire : Wire}
    (cfg : config) (evs : list (io * datagram)) (d : gmap string Encoded) (st' : server) :
  0 < lruSize cfg ->
  serve cfg evs (start_server cfg d) = Running st' ->
  Z.of_nat (length (ll (limiter st'))) <= lruSize cfg
  /\ NoDup (ll (limiter st')).*1.
Proof.
  intros Hpos Hrun.
  assert (forall evs st,
    NoDup (ll (limiter st)).*1 -> MaxEntries (limiter st) = lruSize cfg ->
    Z.of_nat (length (ll (limiter st))) <= lruSize cfg ->
    serve cfg evs st = Running st' ->
    Z.of_nat (length (ll (limiter st'))) <= lruSize cfg
    /\ NoDup (ll (limiter st')).*1) as Hgen.
  { clear evs d Hrun. induction evs as [| [w rc] evs IH]; intros st Hnd Hm Hlen Hrun.
    - simpl in Hrun. by injection Hrun as <-.
    - simpl in Hrun. destruct (serve_one cfg w rc st) as [st1 |] eqn:Hone; [| done].
      destruct (serve_one_limiter cfg w rc st st1 Hone) as (addr & b & st2 & Hl & Heq).
      destruct (limit_cache_bounded cfg w addr st b st2 Hl Hnd ltac:(lia) ltac:(lia))
        as (Hnd2 & Hlen2 & Hm2).
      apply (IH st1); rewrite ?Heq; [done | lia | lia | done]. }
  apply (Hgen evs (start_server cfg d)); simpl; [apply NoDup_nil_2 | done | lia | done].
Qed.

Lemma X20_cache_never_exceeds_size_witness :
  let wire := fixed_wire (mkAnnounce 0 (mkDevice "" [] [])) XdrOk None in
  let cfg := mkConfig 1 1 10 false in
  let evs := [(calm 5, mkDatagram "ab" (Some (mkUDPAddr [10; 0; 0; 1] 1)) false);
              (calm 6, mkDatagram "ab" (Some (mkUDPAddr [10; 0; 0; 2] 1)) false)] in
  0 < lruSize cfg
  /\ exists st',
       @serve plain_codec go_net wire cfg evs (@start_server plain_codec cfg ∅) = Running st'
       /\ Z.of_nat (length (ll (limiter st'))) <= lruSize cfg
       /\ NoDup (ll (limiter st')).*1.
Proof.
  intros wire cfg evs.
  assert (0 < lruSize cfg) as Hpos by reflexivity.
  split; [exact Hpos |].
  destruct (@serve plain_codec go_net wire cfg evs (@start_server plain_codec cfg ∅))
    as [st' |] eqn:Hs; [| vm_compute in Hs; discriminate].
  exists st'. split; [reflexivity |].
  exact (@X20_cache_never_exceeds_size plain_codec go_net wire cfg evs ∅ st' Hpos Hs).
Defined.

(** X21.  A packet of one source does not touch the bucket of another:
    when the source has its bucket, or the cache has room for a new one,
    the bucket found for any other source is the same before and after
    [limit]. *)
Theorem X21_other_sources_untouched {codec : XDRCodec} {net : NetURL}
    (cfg : config) (w : io) (addr : UDPAddr) (st st' : server) (b : bool) (key' : string) :
  is_Some (lru_find (IP_String (IP addr)) (ll (limiter st)))
  \/ MaxEntries (limiter st) = 0
  \/ Z.of_nat (length (ll (limiter st))) < MaxEntries (limiter st) ->
  limit cfg w addr st = Running (b, st') ->
  key' ≠ IP_String (IP addr) ->
  lru_find key' (ll (limiter st')) = lru_find key' (ll (limiter st)).
Proof.
  intros Hroom Hl Hne. unfold limit, lru_Get in Hl.
  assert (String.eqb (IP_String (IP addr)) key' = false) as Hk
    by (apply String.eqb_neq; congruence).
  destruct (lru_find (IP_String (IP addr)) (ll (limiter st))) as [bkt |] eqn:Hf.
  - destruct (TakeAvailable (io_time w) 1 bkt) as [n bkt'].
    unfold lru_poke in Hl. simpl in Hl. rewrite String.eqb_refl in Hl.
    destruct (negb (n =? 1)); injection Hl as <- <-; simpl; rewrite Hk;
      by apply lru_find_remove_ne.
  - destruct Hroom as [[? ?] | Hroom]; [done |].
    destruct (limit_interval cfg) as [intv |]; [| done].
    destruct (NewBucket _ _ _) as [bkt |]; [| done].
    injection Hl as <- <-. simpl. unfold lru_Add. rewrite Hf.
    replace (negb (MaxEntries (limiter st) =? 0) && _) with false.
    + simpl. by rewrite Hk.
    + symmetry. apply andb_false_iff. destruct Hroom as [Hz | Hlt].
      * left. apply negb_false_iff, Z.eqb_eq. exact Hz.
      * right. apply Z.ltb_ge. simpl length. lia.
Qed.

Lemma X21_other_sources_untouched_witness :
  let bkt := mkBucket 0 10 1 10000000000 3 0 in
  let other := mkBucket 0 10 1 10000000000 7 0 in
  let st : @server plain_codec :=
    mkServer ∅ (mkCache 1024 [("10.0.0.9", other); ("203.0.113.5", bkt)]) 0 0 0 0 0 [] [] in
  (is_Some (lru_find (@IP_String go_net (IP sample_source)) (ll (limiter st)))
   \/ MaxEntries (limiter st) = 0
   \/ Z.of_nat (length (ll (limiter st))) < MaxEntries (limiter st))
  /\ exists b st',
       @limit plain_codec go_net default_config (calm 5) sample_source st = Running (b, st')
       /\ lru_find "10.0.0.9" (ll (limiter st')) = Some other.
Proof.
  intros bkt other st.
  assert (is_Some (lru_find (@IP_String go_net (IP sample_source)) (ll (limiter st)))
          \/ MaxEntries (limiter st) = 0
          \/ Z.of_nat (length (ll (limiter st))) < MaxEntries (limiter st)) as Hroom
    by (left; vm_compute; by eexists).
  split; [exact Hroom |].
  destruct (@limit plain_codec go_net default_config (calm 5) sample_source st)
    as [[b st'] |] eqn:Hl; [| vm_compute in Hl; discriminate].
  exists b, st'. split; [reflexivity |].
  rewrite (@X21_other_sources_untouched plain_codec go_net default_config (calm 5)
             sample_source st st' b "10.0.0.9" Hroom Hl ltac:(vm_compute; discriminate)).
  reflexivity.
Defined.

(** X22.  The limiter holds a source to its rate.  Of the packets that a
    new source sends, with a clock that does not go back, [limit] lets
    through at most one for the creation of the bucket, [limitBurst] for
    the tokens it starts with, and one for every refill interval that has
    gone by since the first packet. *)
Theorem X22_rate_upper_bound {codec : XDRCodec} {net : NetURL}
    (cfg : config) (addr : UDPAddr) (st : server) (w1 : io) (ws : list io) (I : Z) :
  lru_find (IP_String (IP addr)) (ll (limiter st)) = None ->
  0 <= MaxEntries (limiter st) ->
  limit_interval cfg = Some I -> 0 < I ->
  0 < limitBurst cfg < 2 ^ 62 ->
  0 <= io_time w1 ->
  paced 0 (io_time w1) (map io_time ws) ->
  Forall (fun w => io_time w < 2 ^ 62) ws ->
  exists bs st',
    limit_seq cfg (w1 :: ws) addr st = Running (bs, st')
    /\ length bs = S (length ws)
    /\ Z.of_nat (passed bs)
       <= 1 + limitBurst cfg + (List.last (map io_time ws) (io_time w1) - io_time w1) / I.
Proof.
  intros Hf Hm HI Hpos HB Ht1 Hp Hws.
  simpl limit_seq. rewrite (limit_miss cfg w1 addr st I Hf HI Hpos ltac:(lia)).
  destruct (lru_Add_head (IP_String (IP addr))
              (mkBucket (io_time w1) (limitBurst cfg) 1 I (limitBurst cfg) 0)
              (limiter st) Hm Hf) as [rest Hrest].
  set (b0 := mkBucket (io_time w1) (limitBurst cfg) 1 I (limitBurst cfg) 0) in *.
  set (st1 := set_limiter _ st).
  assert (ll (limiter st1) = (IP_String (IP addr), b0) :: rest) as Hl1
    by (subst st1; simpl; by rewrite Hrest).
  destruct (limit_seq_bound cfg addr (io_time w1) I (io_time w1) ws st1 b0 rest
              ltac:(lia) Hpos HB Hp Hws Hl1)
    as (bs & st' & b' & -> & Hlen & (_ & _ & _ & _ & Ha & Ht) & Hpot).
  { unfold bucket_ok. subst b0. simpl. rewrite Z.sub_diag, Z.div_0_l by lia.
    repeat split; lia. }
  exists (false :: bs), st'. split; [done |]. split; [simpl; by rewrite Hlen |].
  unfold passed in *. simpl. subst b0. simpl in Hpot. lia.
Qed.

Lemma X22_rate_upper_bound_witness :
  let st : @server plain_codec := @start_server plain_codec default_config ∅ in
  let ws := replicate 20 (calm 15000000000) in
  (lru_find (@IP_String go_net (IP sample_source)) (ll (limiter st)) = None
   /\ 0 <= MaxEntries (limiter st)
   /\ limit_interval default_config = Some 10000000000 /\ 0 < 10000000000
   /\ 0 < limitBurst default_config < 2 ^ 62
   /\ 0 <= io_time (calm 0))
  /\ exists bs st',
       @limit_seq plain_codec go_net default_config (calm 0 :: ws) sample_source st
       = Running (bs, st')
       /\ length bs = 21%nat
       /\ Z.of_nat (passed bs) <= 12.
Proof.
  intros st ws.
  assert (lru_find (@IP_String go_net (IP sample_source)) (ll (limiter st)) = None) as Hf
    by reflexivity.
  assert (0 <= MaxEntries (limiter st)) as Hm by (vm_compute; discriminate).
  assert (limit_interval default_config = Some 10000000000) as HI by reflexivity.
  assert (0 < 10000000000) as Hpos by reflexivity.
  assert (0 < limitBurst default_config < 2 ^ 62) as HB by (split; reflexivity).
  assert (0 <= io_time (calm 0)) as Ht1 by (vm_compute; discriminate).
  split; [by repeat split |].
  apply (@X22_rate_upper_bound plain_codec go_net default_config sample_source st
           (calm 0) ws 10000000000 Hf Hm HI Hpos HB Ht1).
  - vm_compute. repeat split; discriminate.
  - repeat constructor.
Defined.

(** X23.  When the cache is full, the bucket of a new source takes the
    place of the least recently used one: the new entry goes to the front
    and the entry at the back of the recency list is dropped, the others
    staying in their order. *)
Theorem X23_full_cache_evicts_oldest {codec : XDRCodec} {net : NetURL}
    (cfg : config) (w : io) (addr : UDPAddr) (st : server) (I : Z) :
  lru_find (IP_String (IP addr)) (ll (limiter st)) = None ->
  limit_interval cfg = Some I -> 0 < I -> 0 < limitBurst cfg ->
  0 < MaxEntries (limiter st) ->
  Z.of_nat (length (ll (limiter st))) = MaxEntries (limiter st) ->
  exists st',
    limit cfg w addr st = Running (false, st')
    /\ ll (limiter st')
       = (IP_String (IP addr), mkBucket (io_time w) (limitBurst cfg) 1 I (limitBurst cfg) 0)
         :: removelast (ll (limiter st)).
Proof.
  intros Hf HI Hpos HB Hm Hfull.
  rewrite (limit_miss cfg w addr st I Hf HI Hpos HB).
  eexists. split; [reflexivity |]. simpl. unfold lru_Add. rewrite Hf.
  replace (negb (MaxEntries (limiter st) =? 0) && _) with true.
  - simpl. destruct (ll (limiter st)) as [| e l] eqn:Hl; [simpl in Hfull; lia | done].
  - symmetry. apply andb_true_iff. split.
    + apply negb_true_iff, Z.eqb_neq. lia.
    + apply Z.ltb_lt. simpl length. lia.
Qed.

Lemma X23_full_cache_evicts_oldest_witness :
  let newer := mkBucket 0 10 1 10000000000 7 0 in
  let older := mkBucket 0 10 1 10000000000 3 0 in
  let st : @server plain_codec :=
    mkServer ∅ (mkCache 2 [("10.0.0.9", newer); ("10.0.0.8", older)]) 0 0 0 0 0 [] [] in
  (lru_find (@IP_String go_net (IP sample_source)) (ll (limiter st)) = None
   /\ limit_interval default_config = Some 10000000000 /\ 0 < 10000000000
   /\ 0 < limitBurst default_config /\ 0 < MaxEntries (limiter st)
   /\ Z.of_nat (length (ll (limiter st))) = MaxEntries (limiter st))
  /\ exists st',
       @limit plain_codec go_net default_config (calm 5) sample_source st
       = Running (false, st')
       /\ ll (limiter st')
          = [("203.0.113.5"%string, mkBucket 5 10 1 10000000000 10 0);
             ("10.0.0.9"%string, newer)].
Proof.
  intros newer older st.
  assert (lru_find (@IP_String go_net (IP sample_source)) (ll (limiter st)) = None) as Hf
    by reflexivity.
  assert (limit_interval default_config = Some 10000000000) as HI by reflexivity.
  assert (0 < 10000000000) as Hpos by reflexivity.
  assert (0 < limitBurst default_config) as HB by reflexivity.
  assert (0 < MaxEntries (limiter st)) as Hm by reflexivity.
  assert (Z.of_nat (length (ll (limiter st))) = MaxEntries (limiter st)) as Hfull
    by reflexivity.
  split; [by repeat split |].
  exact (@X23_full_cache_evicts_oldest plain_codec go_net default_config (calm 5)
           sample_source st 10000000000 Hf HI Hpos HB Hm Hfull).
Defined.

(** * The timer and the set-up of the relational store *)

Lemma Truncate_bounds (t d : Z) :
  0 < d ->
  t - d < Truncate t d <= t /\ (Truncate t d + unixToInternal * 1000000000) mod d = 0.
Proof.
  intros Hd. unfold Truncate.
  replace (d <=? 0) with false by (symmetry; apply Z.leb_gt; lia).
  pose proof (Z.mod_pos_bound (t + unixToInternal * 1000000000) d Hd) as Hm.
  split; [lia |].
  replace (t - (t + unixToInternal * 1000000000) mod d + unixToInternal * 1000000000)
    with ((t + unixToInternal * 1000000000) - (t + unixToInternal * 1000000000) mod d)
    by lia.
  rewrite Zminus_mod, Z.mod_mod, Z.sub_diag by lia. apply Z.mod_0_l. lia.
Qed.

Lemma next_aligned (intv t0 : Z) :
  0 < intv < 9223372036 ->
  t0 < (next intv t0).1 <= t0 + intv * 1000000000
  /\ ((next intv t0).1 + unixToInternal * 1000000000) mod (intv * 1000000000) = 0.
Proof.
  intros Hi. unfold next. simpl.
  assert (mul64 intv 1000000000 = intv * 1000000000) as ->.
  { unfold mul64. apply wrap64_small. unfold int64_range. lia. }
  destruct (Truncate_bounds (t0 + intv * 1000000000) (intv * 1000000000) ltac:(lia))
    as [Hb Hm].
  split; [lia | done].
Qed.

(** X24.  [next] wakes up at the first multiple of the interval, counted
    from Go's zero time, that lies strictly after the present time: the
    time returned is at most one interval away, and the sleep is exactly
    the distance to it. *)
Theorem X24_next_alignment (intv t0 : Z) :
  0 < intv < 9223372036 ->
  let d := intv * 1000000000 in
  t0 < (next intv t0).1 <= t0 + d
  /\ ((next intv t0).1 + unixToInternal * 1000000000) mod d = 0
  /\ (next intv t0).2 = (next intv t0).1 - t0.
Proof.
  intros Hi d. unfold next. simpl.
  assert (mul64 intv 1000000000 = d) as ->.
  { unfold mul64. apply wrap64_small. unfold int64_range. subst d. lia. }
  destruct (Truncate_bounds (t0 + d) d ltac:(subst d; lia)) as [Hb Hm].
  split; [lia |]. split; [done |].
  unfold time_Sub, sat64. subst d. lia.
Qed.

Lemma X24_next_alignment_witness :
  0 < 60 < 9223372036
  /\ next 60 1446336000500000000 = (1446336060000000000, 59500000000).
Proof.
  assert (0 < 60 < 9223372036) as Hi by (split; reflexivity).
  split; [exact Hi |].
  destruct (X24_next_alignment 60 1446336000500000000 Hi) as (_ & _ & Hs).
  apply injective_projections; [vm_compute; reflexivity | rewrite Hs; vm_compute; reflexivity].
Defined.

(** X25.  A sweep runs on the hour: the time that [clean] gets from
    [next(cacheLimitSeconds)] is a whole number of seconds, a multiple of
    3600 in Unix time, later than the second in which it was asked for and
    at most an hour after it. *)
Theorem X25_sweep_runs_on_the_hour (t0 : Z) :
  let now := (next cacheLimitSeconds t0).1 in
  now mod 1000000000 = 0
  /\ Unix now mod cacheLimitSeconds = 0
  /\ Unix t0 < Unix now <= Unix t0 + cacheLimitSeconds.
Proof.
  intros now.
  destruct (next_aligned cacheLimitSeconds t0) as (Hb & Hm);
    [unfold cacheLimitSeconds; lia |].
  fold now in Hb, Hm.
  apply Z.mod_divide in Hm; [| unfold cacheLimitSeconds; lia].
  destruct Hm as [q Hq]. unfold cacheLimitSeconds, unixToInternal in *.
  assert (now = (q - 17259888) * 3600 * 1000000000) as Hnow by lia.
  unfold Unix. rewrite Hnow.
  split; [by rewrite Z.mod_mul |].
  rewrite Z.div_mul by lia. split; [by rewrite Z.mod_mul |].
  pose proof (Z.div_mod t0 1000000000 ltac:(lia)) as Hdm.
  pose proof (Z.mod_pos_bound t0 1000000000 ltac:(lia)) as Hmb.
  lia.
Qed.

(** The chain of statements stops at the first failure. *)
Lemma exec_chain_spec (e : sql_env) (stmts : list string) :
  (exec_chain e stmts).1 `prefix_of` stmts
  /\ ((exec_chain e stmts).2 = false ->
        (exec_chain e stmts).1 = stmts /\ Forall (fun q => exec_ok e q = true) stmts)
  /\ ((exec_chain e stmts).2 = true ->
        exists pre q, (exec_chain e stmts).1 = pre ++ [q]
                      /\ Forall (fun q => exec_ok e q = true) pre
                      /\ exec_ok e q = false).
Proof.
  induction stmts as [| q stmts (Hpre & Hok & Hfail)]; simpl.
  - split; [done |]. split; [done | discriminate].
  - destruct (exec_ok e q) eqn:Hq.
    + destruct (exec_chain e stmts) as [done err]. simpl in *.
      split; [by apply prefix_cons |]. split.
      * intros He. destruct (Hok He) as [-> Hall]. split; [done |]. by constructor.
      * intros He. destruct (Hfail He) as (pre & q' & -> & Hall & Hq').
        exists (q :: pre), q'. split; [done |]. split; [by constructor | done].
    + simpl. split; [apply prefix_cons, prefix_nil |]. split; [discriminate |].
      intros _. exists [], q. by repeat split.
Qed.

(** X26.  [qlSetup] runs its six statements in order inside one
    transaction and stops at the first that fails.  The transaction is
    committed exactly when it was begun and all six statements succeeded,
    and rolled back exactly when it was begun and a statement failed, the
    failing statement being the last one executed; the error returned is
    nil exactly when the commit itself succeeded too. *)
Theorem X26_qlSetup_transaction (e : sql_env) :
  let done := (qlSetup e).1.1 in
  let fin := (qlSetup e).1.2 in
  let err := (qlSetup e).2 in
  done `prefix_of` setup_statements
  /\ (fin = NotBegun <-> begin_ok e = false)
  /\ (fin = NotBegun -> done = [] /\ err = true)
  /\ (fin = Committed <->
        begin_ok e = true /\ Forall (fun q => exec_ok e q = true) setup_statements)
  /\ (fin = Committed -> done = setup_statements)
  /\ (fin = RolledBack ->
        err = true
        /\ exists pre q, done = pre ++ [q]
                         /\ Forall (fun q => exec_ok e q = true) pre
                         /\ exec_ok e q = false)
  /\ (err = false <-> fin = Committed /\ commit_ok e = true).
Proof.
  unfold qlSetup. generalize setup_statements. intros stmts.
  destruct (begin_ok e); cbn [negb fst snd].
  2: { split; [apply prefix_nil |]. split; [done |]. split; [done |].
       split; [split; [discriminate | by intros [? _]] |].
       split; [discriminate |]. split; [discriminate |].
       split; [discriminate | by intros [? _]]. }
  destruct (exec_chain_spec e stmts) as (Hpre & Hok & Hfail).
  destruct (exec_chain e stmts) as [ran err]. cbn [fst snd] in *.
  destruct err; cbn [fst snd].
  - split; [exact Hpre |]. split; [split; discriminate |]. split; [discriminate |].
    split.
    { split; [discriminate |]. intros [_ Hall].
      destruct (Hfail eq_refl) as (pre & q & Hd & Hp & Hq).
      assert (q ∈ stmts) as Hin.
      { destruct Hpre as [k Hk]. rewrite Hk, Hd. apply elem_of_app. left.
        apply elem_of_app. right. by apply list_elem_of_singleton. }
      rewrite (proj1 (Forall_forall _ _) Hall q Hin) in Hq. discriminate. }
    split; [discriminate |]. split; [intros _; split; [reflexivity | by apply Hfail] |].
    split; [discriminate | by intros [? _]].
  - destruct (Hok eq_refl) as [-> Hall].
    split; [exact Hpre |]. split; [split; discriminate |]. split; [discriminate |].
    split; [split; [by intros _ | reflexivity] |].
    split; [reflexivity |]. split; [discriminate |].
    destruct (commit_ok e); cbn [negb]; split; try discriminate.
    + by intros _.
    + reflexivity.
    + by intros [_ ?].
Qed.
